(** * frc kinematics: ChassisSpeeds and SwerveModuleState

    A shallow embedding of
      wpilibc/src/main/native/include/frc/kinematics/ChassisSpeeds.h
      wpilibc/src/main/native/include/frc/kinematics/SwerveModuleState.h

    The C++ [double] is IEEE 754 binary64; it is embedded as Rocq's primitive
    [float], which is the same format with round-to-nearest-even arithmetic.
    Every operator of the source ([*], [+], unary [-]) is the corresponding
    primitive operator and rounds once, as the C++ expression does when the
    compiler does not contract [a*b + c] into a fused multiply-add; a term of
    this file then evaluates to the very bits the compiled header produces
    (NaN payloads aside: Rocq has one NaN).

    Layout:
    - the data model and [FromFieldRelativeSpeeds];
    - bit-level facts on binary64 operations, from [SpecFloat];
    - the real value of a double and the rounding-error model
      [fl(x op y) = (x op y)(1 + d) + e], |d| <= 2^-53, |e| <= 2^-1075;
    - the error analysis of the transform: round trip, norm, linearity and
      composition hold within a few units of roundoff;
    - the transform as the code computes it: its fields, the exact cases, and
      the inputs on which the exact identities fail;
    - further properties: exact symmetries, accuracy and range. *)

From Stdlib Require Import ZArith Bool Lia Floats Reals Lra.

#[local] Open Scope float_scope.

(** ** Data model *)

(** C++ [double]. *)
Definition double := float.

(** Modelled from the spec: frc/geometry/Rotation2d.h is not among the sources.
    The spec treats the rotation as an opaque capability providing the cosine
    and the sine of a planar angle, default-constructed to the identity (zero)
    rotation.  [Cos] and [Sin] are the two accessors
    [FromFieldRelativeSpeeds] calls. *)
Record Rotation2d := { Cos : double; Sin : double }.

(** Modelled from the spec: the default-constructed rotation, the zero
    rotation, whose cosine is 1 and whose sine is 0. *)
Definition Rotation2d_default : Rotation2d := {| Cos := 1; Sin := 0 |}.

(** [struct ChassisSpeeds { double dx = 0; double dy = 0; double dtheta = 0; }] *)
Record ChassisSpeeds := { dx : double; dy : double; dtheta : double }.

(** The value the default member initialisers give: [ChassisSpeeds{}]. *)
Definition ChassisSpeeds_default : ChassisSpeeds :=
  {| dx := 0; dy := 0; dtheta := 0 |}.

(** [struct SwerveModuleState { double speed = 0; Rotation2d angle; }] *)
Record SwerveModuleState := { speed : double; angle : Rotation2d }.

(** [SwerveModuleState{}]: [speed] from its initialiser, [angle] from
    [Rotation2d]'s default constructor. *)
Definition SwerveModuleState_default : SwerveModuleState :=
  {| speed := 0; angle := Rotation2d_default |}.

(** [ChassisSpeeds::FromFieldRelativeSpeeds]:
<<
    return {vx * robotAngle.Cos() + vy * robotAngle.Sin(),
            -vx * robotAngle.Sin() + vy * robotAngle.Cos(), vtheta};
>>
    In C++ the unary minus binds tighter than [*]: [-vx * s] is [(-vx) * s]. *)
Definition FromFieldRelativeSpeeds (vx vy vtheta : double)
    (robotAngle : Rotation2d) : ChassisSpeeds :=
  {| dx := vx * Cos robotAngle + vy * Sin robotAngle;
     dy := (- vx) * Sin robotAngle + vy * Cos robotAngle;
     dtheta := vtheta |}.
Arguments FromFieldRelativeSpeeds (vx vy vtheta)%_float robotAngle.

(** The forward rotation of the pair [(dx, dy)] of [p] by the angle of [r], as
    a test of the round trip computes it in doubles:
    [(dx*cos - dy*sin, dx*sin + dy*cos)]. *)
Definition rotate_forward (p : ChassisSpeeds) (r : Rotation2d) : double * double :=
  (dx p * Cos r - dy p * Sin r, dx p * Sin r + dy p * Cos r).

(** The squared norm of a pair of doubles, computed in doubles. *)
Definition norm2 (x y : double) : double := x * x + y * y.
Arguments norm2 (x y)%_float.

(** The sum of two rotations given by the angle-addition formulas:
    cosine [cos a cos b - sin a sin b], sine [sin a cos b + cos a sin b]. *)
Definition Rotation2d_plus (a b : Rotation2d) : Rotation2d :=
  {| Cos := Cos a * Cos b - Sin a * Sin b;
     Sin := Sin a * Cos b + Cos a * Sin b |}.

(** Componentwise scaling and sum of chassis speeds, in doubles. *)
Definition ChassisSpeeds_scale (k : double) (p : ChassisSpeeds) : ChassisSpeeds :=
  {| dx := k * dx p; dy := k * dy p; dtheta := k * dtheta p |}.
Arguments ChassisSpeeds_scale k%_float p.

Definition ChassisSpeeds_add (p q : ChassisSpeeds) : ChassisSpeeds :=
  {| dx := dx p + dx q; dy := dy p + dy q; dtheta := dtheta p + dtheta q |}.

(** Some headings used below.  [heading_quarter] has cosine 0 and sine 1;
    [heading_3_4_5] has cosine 3/5 and sine 4/5, each rounded to the nearest
    double (0.6 and 0.8). *)
Definition heading_quarter : Rotation2d := {| Cos := 0; Sin := 1 |}.
Definition heading_3_4_5 : Rotation2d :=
  {| Cos := 0x1.3333333333333p-1; Sin := 0x1.999999999999ap-1 |}.

(** ** The value of a double

    A finite double [(s, m, e)] denotes the real number [(-1)^s * m * 2^e].
    The definitions below give doubles their real value and name the two
    constants of the rounding-error model of binary64. *)

#[local] Open Scope R_scope.

(** [2^e] as a real number. *)
Definition bpow (e : Z) : R := powerRZ 2 e.

Definition cond_Ropp (s : bool) (x : R) : R := if s then - x else x.

(** The real value of a [spec_float]; zeros, infinities and NaN are sent to 0. *)
Definition SF2R (x : spec_float) : R :=
  match x with
  | S754_finite s m e => cond_Ropp s (IZR (Zpos m) * bpow e)
  | _ => 0
  end.

(** Zero or finite: neither an infinity nor NaN. *)
Definition SFfinite (x : spec_float) : bool :=
  match x with
  | S754_zero _ | S754_finite _ _ _ => true
  | _ => false
  end.

(** The real value of a double. *)
Definition val (x : double) : R := SF2R (Prim2SF x).
Arguments val x%_float.

(** [std::isfinite]. *)
Definition finite (x : double) : Prop := is_finite x = true.
Arguments finite x%_float.

(** Unit roundoff [2^-53] and half the least subnormal [2^-1075]. *)
Definition u : R := bpow (-53).
Definition eta : R := bpow (-1075).

(** What a shift record [(m, r, s)] says of the real number [x] it truncates:
    [x] lies in [[m, m+1)], at [m] exactly, below, at or above the midpoint
    according to the round and sticky bits. *)
Definition shr_inv (mrs : shr_record) (x : R) : Prop :=
  (0 <= shr_m mrs)%Z /\
  match shr_r mrs, shr_s mrs with
  | false, false => x = IZR (shr_m mrs)
  | false, true => IZR (shr_m mrs) < x < IZR (shr_m mrs) + /2
  | true, false => x = IZR (shr_m mrs) + /2
  | true, true => IZR (shr_m mrs) + /2 < x < IZR (shr_m mrs) + 1
  end.

(** The two-term dot product [a*b + c*d] in doubles: every field the
    transform computes has this shape. *)
Definition dot2 (a b c d : double) : double := (a * b + c * d)%float.
Arguments dot2 (a b c d)%_float.

(** Componentwise IEEE comparison [==] of two chassis speeds. *)
Definition ChassisSpeeds_eqb (p q : ChassisSpeeds) : bool :=
  (dx p =? dx q)%float && (dy p =? dy q)%float && (dtheta p =? dtheta q)%float.

(** A rotation that is well formed up to rounding: its cosine and sine lie in
    [[-1, 1]] and the sum of their squares is 1 within [8 u].  The cosine and
    sine of an angle rounded to doubles, and a normalised vector, are such. *)
Definition well_formed (r : Rotation2d) : Prop :=
  Rabs (val (Cos r)) <= 1 /\ Rabs (val (Sin r)) <= 1 /\
  Rabs (val (Cos r) * val (Cos r) + val (Sin r) * val (Sin r) - 1) <= 8 * u.

(** Two chassis speeds whose linear components differ by at most [tol]. *)
Definition xy_within (tol : R) (p q : ChassisSpeeds) : Prop :=
  Rabs (val (dx p) - val (dx q)) <= tol /\ Rabs (val (dy p) - val (dy q)) <= tol.

(** Both linear components are finite doubles. *)
Definition xy_finite (p : ChassisSpeeds) : Prop := finite (dx p) /\ finite (dy p).

(** Two doubles that are the same number: the same double, or two zeros of
    either sign. *)
Definition same_number (x y : double) : Prop :=
  x = y \/ (is_zero x = true /\ is_zero y = true).
Arguments same_number (x y)%_float.

(** The half-turn heading: cosine -1, sine 0. *)
Definition heading_half : Rotation2d := {| Cos := (-1)%float; Sin := 0%float |}.

(** * Binary64 arithmetic *)

Section Powers.

Lemma bpow_gt_0 e : 0 < bpow e.
Proof. apply powerRZ_lt. lra. Qed.

Lemma bpow_add a b : bpow (a + b) = bpow a * bpow b.
Proof. apply powerRZ_add. lra. Qed.

Lemma bpow_1 : bpow 1 = 2.
Proof. unfold bpow. simpl. lra. Qed.

Lemma bpow_m1 : bpow (-1) = /2.
Proof. unfold bpow. simpl. f_equal. lra. Qed.

Lemma bpow_le a b : (a <= b)%Z -> bpow a <= bpow b.
Proof.
  intros H. replace b with (a + (b - a))%Z by lia. rewrite bpow_add.
  assert (1 <= bpow (b - a)).
  { unfold bpow. destruct (b - a)%Z eqn:E; try lia; simpl; [lra|].
    apply pow_R1_Rle. lra. }
  pose proof (bpow_gt_0 a). nra.
Qed.

Lemma bpow_IZR k : (0 <= k)%Z -> bpow k = IZR (2 ^ k).
Proof.
  intros H. unfold bpow. rewrite <- (Z2Nat.id k) by assumption.
  rewrite <- pow_powerRZ, pow_IZR. reflexivity.
Qed.

Lemma bpow_pos_nat p : bpow (Zpos p) = 2 ^ Pos.to_nat p.
Proof. reflexivity. Qed.

Lemma digits2_pos_bounds m :
  (2 ^ (Zpos (digits2_pos m) - 1) <= Zpos m < 2 ^ Zpos (digits2_pos m))%Z.
Proof.
  induction m as [m IH|m IH|]; simpl digits2_pos; [| |simpl; lia];
    rewrite Pos2Z.inj_succ;
    replace (Z.succ (Z.pos (digits2_pos m)) - 1)%Z
      with (Z.succ (Z.pos (digits2_pos m) - 1)) by lia;
    rewrite !Z.pow_succ_r by lia; lia.
Qed.

Lemma digits2_pos_bpow m :
  bpow (Zpos (digits2_pos m) - 1) <= IZR (Zpos m) < bpow (Zpos (digits2_pos m)).
Proof.
  pose proof (digits2_pos_bounds m) as [H1 H2].
  rewrite !bpow_IZR by lia. split; [apply IZR_le | apply IZR_lt]; assumption.
Qed.

End Powers.

(** ** Shifting right and rounding to nearest even *)

Section Rounding.

Lemma IZR_xO p : IZR (Zpos p~0) = 2 * IZR (Zpos p).
Proof. rewrite Pos2Z.inj_xO, mult_IZR. reflexivity. Qed.

Lemma IZR_xI p : IZR (Zpos p~1) = 2 * IZR (Zpos p) + 1.
Proof. rewrite Pos2Z.inj_xI, plus_IZR, mult_IZR. reflexivity. Qed.

Lemma shr_1_inv mrs x : shr_inv mrs x -> shr_inv (shr_1 mrs) (x / 2).
Proof.
  destruct mrs as [m r s]. unfold shr_inv. simpl shr_m; simpl shr_r; simpl shr_s.
  intros [Hm H].
  destruct m as [|[p|p|]|p]; try lia; simpl;
    [ | pose proof (IZR_xI p) as E | pose proof (IZR_xO p) as E | ];
    (split; [lia|]); destruct r, s; simpl in *; lra.
Qed.

Lemma iter_shr_1_inv (n : positive) : forall mrs x,
  shr_inv mrs x -> shr_inv (SpecFloat.iter_pos shr_1 n mrs) (x / 2 ^ Pos.to_nat n).
Proof.
  induction n as [n IH|n IH|]; intros mrs x H; simpl SpecFloat.iter_pos.
  - rewrite Pos2Nat.inj_xI.
    replace (x / 2 ^ S (2 * Pos.to_nat n))
      with (x / 2 / 2 ^ Pos.to_nat n / 2 ^ Pos.to_nat n).
    + apply IH, IH, shr_1_inv, H.
    + replace (2 * Pos.to_nat n)%nat with (Pos.to_nat n + Pos.to_nat n)%nat by lia.
      simpl. rewrite pow_add. field. apply pow_nonzero. lra.
  - rewrite Pos2Nat.inj_xO.
    replace (x / 2 ^ (2 * Pos.to_nat n))
      with (x / 2 ^ Pos.to_nat n / 2 ^ Pos.to_nat n).
    + apply IH, IH, H.
    + replace (2 * Pos.to_nat n)%nat with (Pos.to_nat n + Pos.to_nat n)%nat by lia.
      rewrite pow_add. field. apply pow_nonzero. lra.
  - simpl. replace (x / (2 * 1)) with (x / 2) by field. apply shr_1_inv, H.
Qed.

Lemma round_nearest_even_inv mrs x :
  shr_inv mrs x ->
  let m' := round_nearest_even (shr_m mrs) (loc_of_shr_record mrs) in
  Rabs (IZR m' - x) <= /2 /\ (shr_m mrs <= m' <= shr_m mrs + 1)%Z.
Proof.
  destruct mrs as [m r s]. unfold shr_inv; simpl. intros [Hm H].
  destruct r, s; simpl; try destruct (Z.even m); rewrite ?plus_IZR;
    (split; [apply Rabs_le; lra | lia]).
Qed.

Lemma shr_nonpos mrs e n : (n <= 0)%Z -> shr mrs e n = (mrs, e).
Proof. destruct n; trivial; lia. Qed.

Lemma shr_pos_inv mrs e p x :
  shr_inv mrs x ->
  shr_inv (fst (shr mrs e (Zpos p))) (x / bpow (Zpos p)) /\
  snd (shr mrs e (Zpos p)) = (e + Zpos p)%Z.
Proof.
  intros H. unfold shr. cbn [fst snd]. split; trivial.
  rewrite bpow_pos_nat. apply iter_shr_1_inv, H.
Qed.
(** Unsigned core of [binary_round_aux]: the mantissa [M] and exponent [E] it
    ends with. *)
Lemma binary_round_aux_core s m e :
  exists (M E : Z),
    (0 <= M)%Z /\
    binary_round_aux prec emax s (Zpos m) e loc_Exact =
      match M with
      | Z0 => S754_zero s
      | Zpos M' => if (E <=? 971)%Z then S754_finite s M' E else S754_infinity s
      | Zneg _ => S754_nan
      end /\
    Rabs (IZR M * bpow E - IZR (Zpos m) * bpow e) <= u * (IZR (Zpos m) * bpow e) + eta.
Proof.
  unfold binary_round_aux, shr_fexp.
  set (d := Zpos (digits2_pos m)).
  assert (Hd : Zdigits2 (Zpos m) = d) by reflexivity. rewrite Hd.
  set (e1 := fexp prec emax (d + e)).
  assert (He1 : (e1 = Z.max (d + e - 53) (-1074))%Z) by reflexivity.
  pose proof (digits2_pos_bpow m) as Hm. fold d in Hm.
  pose proof (bpow_gt_0 e) as He.
  assert (Hu : 0 < u) by apply bpow_gt_0.
  assert (Heta : 0 < eta) by apply bpow_gt_0.
  assert (Hme : 0 < IZR (Zpos m) * bpow e).
  { apply Rmult_lt_0_compat; [apply IZR_lt; lia | exact He]. }
  destruct (Z_le_gt_dec (e1 - e) 0) as [Hn|Hn].
  - (* no shift: the value is representable as it is *)
    rewrite shr_nonpos by assumption. simpl round_nearest_even.
    rewrite Hd. fold e1. rewrite shr_nonpos by assumption. simpl shr_m.
    exists (Zpos m), e. split; [lia|]. split; [reflexivity|].
    replace (_ - _) with 0 by ring. rewrite Rabs_R0. nra.
  - (* a shift by [e1 - e] > 0 binary digits *)
    destruct (e1 - e)%Z as [|p|p] eqn:Ep; try lia.
    assert (Hinv0 : shr_inv (shr_record_of_loc (Zpos m) loc_Exact) (IZR (Zpos m))).
    { split; simpl; [lia|reflexivity]. }
    destruct (shr_pos_inv _ e p _ Hinv0) as [Hinv Hexp].
    destruct (shr (shr_record_of_loc (Zpos m) loc_Exact) e (Zpos p)) as [mrs' e'].
    cbn [fst snd] in Hinv, Hexp. subst e'.
    replace (e + Zpos p)%Z with e1 by lia.
    destruct (round_nearest_even_inv _ _ Hinv) as [Hr Hq].
    set (m' := round_nearest_even (shr_m mrs') (loc_of_shr_record mrs')) in *.
    assert (Hq0 : (0 <= shr_m mrs')%Z) by apply Hinv.
    (* the rounded mantissa is at most 2^53 *)
    assert (Hx : IZR (Zpos m) / bpow (Zpos p) < bpow 53).
    { apply Rlt_le_trans with (bpow d / bpow (Zpos p)).
      - unfold Rdiv. apply Rmult_lt_compat_r; [apply Rinv_0_lt_compat, bpow_gt_0 | apply Hm].
      - replace d with ((d - Zpos p) + Zpos p)%Z at 1 by lia. rewrite bpow_add.
        unfold Rdiv. rewrite Rmult_assoc, Rinv_r, Rmult_1_r
          by (apply Rgt_not_eq, bpow_gt_0).
        apply bpow_le. lia. }
    assert (Hm' : (m' <= 2 ^ 53)%Z).
    { assert (IZR (shr_m mrs') < bpow 53).
      { destruct Hinv as [_ Hl]. destruct (shr_r mrs'), (shr_s mrs'); lra. }
      rewrite bpow_IZR in H by lia. apply lt_IZR in H. lia. }
    (* value and error of the rounded mantissa *)
    assert (Hval : Rabs (IZR m' * bpow e1 - IZR (Zpos m) * bpow e) <= u * (IZR (Zpos m) * bpow e) + eta).
    { replace (IZR (Zpos m) * bpow e) with (IZR (Zpos m) / bpow (Zpos p) * bpow e1) at 1.
      2:{ replace e1 with (e + Zpos p)%Z by lia. rewrite bpow_add. field.
          apply Rgt_not_eq, bpow_gt_0. }
      rewrite <- Rmult_minus_distr_r, Rabs_mult, (Rabs_pos_eq (bpow e1))
        by (apply Rlt_le, bpow_gt_0).
      apply Rle_trans with (/2 * bpow e1).
      { apply Rmult_le_compat_r; [apply Rlt_le, bpow_gt_0 | exact Hr]. }
      rewrite <- bpow_m1, <- bpow_add.
      destruct (Z.max_spec (d + e - 53) (-1074)) as [[Hlt Hmax]|[Hge Hmax]].
      - (* subnormal result: absolute error *)
        replace (-1 + e1)%Z with (-1075)%Z by lia. fold eta. nra.
      - (* normal result: relative error *)
        assert (bpow (-1 + e1) <= u * (IZR (Zpos m) * bpow e)); [|lra].
        replace (-1 + e1)%Z with (-53 + ((d - 1) + e))%Z by lia.
        rewrite bpow_add. fold u. rewrite bpow_add.
        apply Rmult_le_compat_l; [lra|].
        apply Rmult_le_compat_r; [lra|apply Hm]. }
    destruct m' as [|m''|m''] eqn:Em'; try lia.
    + (* rounded to zero *)
      simpl Zdigits2. rewrite shr_nonpos by (unfold fexp, emin, prec, emax; lia).
      exists 0%Z, e1. simpl shr_m. split; [lia|]. split; [reflexivity|exact Hval].
    + simpl Zdigits2.
      pose proof (digits2_pos_bounds m'') as Hd''.
      destruct (Z_le_gt_dec (Zpos (digits2_pos m'')) 53) as [Hd53|Hd53].
      * rewrite shr_nonpos by (unfold fexp, emin, prec, emax; lia).
        exists (Zpos m''), e1. simpl shr_m. split; [lia|]. split; [reflexivity|exact Hval].
      * (* the carry: the mantissa is exactly 2^53 *)
        assert (Zpos m'' = 2 ^ 53)%Z as E53.
        { assert (2 ^ 53 <= 2 ^ (Zpos (digits2_pos m'') - 1))%Z
            by (apply Z.pow_le_mono_r; lia). lia. }
        assert (m'' = 9007199254740992%positive) by (change (2^53)%Z with 9007199254740992%Z in E53; lia).
        subst m''. simpl digits2_pos.
        replace (fexp prec emax (54 + e1) - e1)%Z with 1%Z
          by (unfold fexp, emin, prec, emax; lia).
        simpl shr. simpl shr_m.
        exists (2 ^ 52)%Z, (e1 + 1)%Z. split; [lia|]. split; [reflexivity|].
        replace (IZR (2 ^ 52) * bpow (e1 + 1)) with (IZR 9007199254740992 * bpow e1); [exact Hval|].
        rewrite bpow_add, bpow_1. change (2^52)%Z with 4503599627370496%Z. 
        replace (IZR 9007199254740992) with (IZR 4503599627370496 * 2); [ring|].
        rewrite <- mult_IZR. reflexivity.
Qed.

Lemma cond_Ropp_abs s x : Rabs (cond_Ropp s x) = Rabs x.
Proof. destruct s; simpl; [apply Rabs_Ropp | reflexivity]. Qed.

Lemma cond_Ropp_minus s x y : cond_Ropp s x - cond_Ropp s y = cond_Ropp s (x - y).
Proof. destruct s; simpl; ring. Qed.

Lemma cond_Ropp_mult sx sy x y :
  cond_Ropp sx x * cond_Ropp sy y = cond_Ropp (xorb sx sy) (x * y).
Proof. destruct sx, sy; simpl; ring. Qed.

(** Rounding a positive mantissa: the result is never NaN, and when it is not
    an infinity it is within [u * |x| + eta] of the exact value [x]. *)
Lemma binary_round_aux_error s m e :
  let r := binary_round_aux prec emax s (Zpos m) e loc_Exact in
  r = S754_infinity s \/
  (SFfinite r = true /\
   Rabs (SF2R r - cond_Ropp s (IZR (Zpos m) * bpow e))
     <= u * (IZR (Zpos m) * bpow e) + eta).
Proof.
  cbv zeta.
  destruct (binary_round_aux_core s m e) as (M & E & HM & -> & Herr).
  destruct M as [|M|M]; try lia.
  - right. split; [reflexivity|]. simpl SF2R.
    replace 0 with (cond_Ropp s (0 * bpow E)) by (destruct s; simpl; ring).
    rewrite cond_Ropp_minus, cond_Ropp_abs. exact Herr.
  - destruct (E <=? 971)%Z; [right|left; reflexivity].
    split; [reflexivity|]. simpl SF2R.
    rewrite cond_Ropp_minus, cond_Ropp_abs. exact Herr.
Qed.

Lemma Pos_iter_xO_IZR d m : IZR (Zpos (Pos.iter xO m d)) = IZR (Zpos m) * bpow (Zpos d).
Proof.
  rewrite bpow_pos_nat.
  induction d using Pos.peano_ind.
  - simpl. rewrite IZR_xO. ring.
  - rewrite Pos.iter_succ, IZR_xO, IHd, Pos2Nat.inj_succ. simpl. ring.
Qed.

(** Aligning a mantissa to a smaller exponent keeps the value. *)
Lemma shl_align_value m e e' :
  IZR (Zpos (fst (shl_align m e e'))) * bpow (snd (shl_align m e e'))
  = IZR (Zpos m) * bpow e.
Proof.
  unfold shl_align. destruct (e' - e)%Z as [|d|d] eqn:E; cbn [fst snd]; trivial.
  rewrite Pos_iter_xO_IZR. replace e with (Zpos d + e')%Z by lia.
  rewrite bpow_add. ring.
Qed.

Lemma shl_align_exponent m e e' : (e' <= e)%Z -> snd (shl_align m e e') = e'.
Proof.
  intros H. unfold shl_align. destruct (e' - e)%Z as [|d|d] eqn:E; cbn [snd]; lia.
Qed.

Lemma binary_round_error s m e :
  let r := binary_round prec emax s m e in
  r = S754_infinity s \/
  (SFfinite r = true /\
   Rabs (SF2R r - cond_Ropp s (IZR (Zpos m) * bpow e))
     <= u * (IZR (Zpos m) * bpow e) + eta).
Proof.
  unfold binary_round.
  pose proof (shl_align_value m e (fexp prec emax (Z.pos (digits2_pos m) + e))) as Hv.
  destruct (shl_align m e _) as [mz ez]. cbn [fst snd] in Hv.
  rewrite <- Hv. apply binary_round_aux_error.
Qed.

(** Rounding a signed integer mantissa, as the additions do. *)
Lemma binary_normalize_error z e sz :
  let r := binary_normalize prec emax z e sz in
  SFfinite r = true ->
  Rabs (SF2R r - IZR z * bpow e) <= u * Rabs (IZR z * bpow e) + eta.
Proof.
  assert (Heta : 0 < eta) by apply bpow_gt_0.
  pose proof (bpow_gt_0 e) as He.
  destruct z as [|m|m]; simpl binary_normalize; cbv zeta.
  - intros _. simpl. rewrite Rmult_0_l, Rminus_0_r, Rabs_R0, Rmult_0_r. lra.
  - intros Hf. destruct (binary_round_error false m e) as [Hi|[_ H]].
    + rewrite Hi in Hf. discriminate.
    + simpl cond_Ropp in H. rewrite (Rabs_pos_eq (IZR (Zpos m) * bpow e)); [exact H|].
      apply Rlt_le, Rmult_lt_0_compat; [apply IZR_lt; lia | exact He].
  - intros Hf. destruct (binary_round_error true m e) as [Hi|[_ H]].
    + rewrite Hi in Hf. discriminate.
    + simpl cond_Ropp in H.
      replace (IZR (Zneg m) * bpow e) with (- (IZR (Zpos m) * bpow e)).
      * rewrite Rabs_Ropp, (Rabs_pos_eq (IZR (Zpos m) * bpow e)); [exact H|].
        apply Rlt_le, Rmult_lt_0_compat; [apply IZR_lt; lia | exact He].
      * change (Zneg m) with (- Zpos m)%Z. rewrite opp_IZR. ring.
Qed.

End Rounding.

(** ** Doubles: finiteness, sign symmetry and the error of one operation *)

Section Doubles.

#[local] Open Scope float_scope.

Lemma SFcompare_refl x : SFfinite x = true -> SFcompare x x = Some Eq.
Proof.
  destruct x as [s|s| |s m e]; simpl; try discriminate; trivial.
  intros _. destruct s; rewrite Z.compare_refl, Pos.compare_cont_refl; reflexivity.
Qed.

Lemma is_finite_SF x : is_finite x = SFfinite (Prim2SF x).
Proof.
  unfold is_finite, is_nan, is_infinity.
  rewrite !eqb_spec, abs_spec.
  change (Prim2SF infinity) with (S754_infinity false).
  destruct (Prim2SF x) as [s|s| |s m e] eqn:E; try (destruct s; reflexivity); trivial.
  unfold SFeqb. rewrite SFcompare_refl by reflexivity. reflexivity.
Qed.

Lemma finite_SF x : finite x <-> SFfinite (Prim2SF x) = true.
Proof. unfold finite. rewrite is_finite_SF. tauto. Qed.

Lemma SFfinite_opp x : SFfinite (SFopp x) = SFfinite x.
Proof. destruct x; reflexivity. Qed.

Lemma SF2R_opp x : SF2R (SFopp x) = (- SF2R x)%R.
Proof. destruct x as [s|s| |s m e]; simpl; try ring. destruct s; simpl; ring. Qed.

Lemma finite_opp x : finite (- x) <-> finite x.
Proof. rewrite !finite_SF, opp_spec, SFfinite_opp. tauto. Qed.

Lemma val_opp x : val (- x) = (- val x)%R.
Proof. unfold val. rewrite opp_spec. apply SF2R_opp. Qed.

(** Rounding to nearest even is symmetric: the sign goes through a product. *)
Lemma mul_opp_l x y : (- x) * y = - (x * y).
Proof.
  apply Prim2SF_inj. rewrite opp_spec, !mul_spec, opp_spec.
  destruct (Prim2SF x) as [sx|sx| |sx mx ex], (Prim2SF y) as [sy|sy| |sy my ey];
    simpl; try reflexivity; try (destruct sx, sy; reflexivity).
  unfold SF64mul, SFmul, binary_round_aux.
  destruct (shr_fexp _ _ _ _ _) as [mrs' e'].
  destruct (shr_fexp _ _ _ _ _) as [mrs'' e''].
  replace (xorb (negb sx) sy) with (negb (xorb sx sy)) by (destruct sx, sy; reflexivity).
  destruct (shr_m mrs''); simpl; trivial.
  destruct (e'' <=? 971)%Z; reflexivity.
Qed.

(** A subtraction is the addition of the opposite. *)
Lemma sub_add_opp x y : x - y = x + (- y).
Proof.
  apply Prim2SF_inj. rewrite sub_spec, add_spec, opp_spec.
  destruct (Prim2SF x) as [sx|sx| |sx mx ex], (Prim2SF y) as [sy|sy| |sy my ey];
    simpl; try reflexivity; destruct sx, sy; reflexivity.
Qed.

Lemma SFmul_finite x y :
  SFfinite (SF64mul x y) = true -> SFfinite x = true /\ SFfinite y = true.
Proof.
  destruct x as [sx|sx| |sx mx ex], y as [sy|sy| |sy my ey]; simpl; auto.
Qed.

Lemma SFadd_finite x y :
  SFfinite (SF64add x y) = true -> SFfinite x = true /\ SFfinite y = true.
Proof.
  destruct x as [sx|sx| |sx mx ex], y as [sy|sy| |sy my ey]; simpl; auto;
    destruct sx, sy; simpl; auto.
Qed.

Lemma SFmul_error x y :
  SFfinite (SF64mul x y) = true ->
  (Rabs (SF2R (SF64mul x y) - SF2R x * SF2R y) <= u * Rabs (SF2R x * SF2R y) + eta)%R.
Proof.
  assert (Heta : (0 < eta)%R) by apply bpow_gt_0.
  assert (Hz : (Rabs (0 - 0) <= u * Rabs 0 + eta)%R).
  { rewrite Rminus_0_r, Rabs_R0, Rmult_0_r. lra. }
  destruct x as [sx|sx| |sx mx ex], y as [sy|sy| |sy my ey]; simpl;
    try discriminate; intros Hf;
    rewrite ?Rmult_0_l, ?Rmult_0_r; try exact Hz.
  destruct (binary_round_aux_error (xorb sx sy) (mx * my) (ex + ey)) as [Hi|[_ H]].
  - unfold SF64mul, SFmul in Hf. rewrite Hi in Hf. discriminate.
  - rewrite cond_Ropp_mult, cond_Ropp_abs.
    replace (IZR (Zpos mx) * bpow ex * (IZR (Zpos my) * bpow ey))%R
      with (IZR (Zpos (mx * my)) * bpow (ex + ey))%R.
    + rewrite (Rabs_pos_eq (IZR (Zpos (mx * my)) * bpow (ex + ey))); [exact H|].
      apply Rlt_le, Rmult_lt_0_compat; [apply IZR_lt; lia | apply bpow_gt_0].
    + rewrite Pos2Z.inj_mul, mult_IZR, bpow_add. ring.
Qed.

Lemma cond_Zopp_IZR s z : IZR (cond_Zopp s z) = cond_Ropp s (IZR z).
Proof. destruct s; simpl; [apply opp_IZR | reflexivity]. Qed.

Lemma SFadd_error x y :
  SFfinite (SF64add x y) = true ->
  (Rabs (SF2R (SF64add x y) - (SF2R x + SF2R y)) <= u * Rabs (SF2R x + SF2R y) + eta)%R.
Proof.
  assert (Heta : (0 < eta)%R) by apply bpow_gt_0.
  assert (Hu : (0 < u)%R) by apply bpow_gt_0.
  assert (Hz : forall r : R, (Rabs (r - r) <= u * Rabs r + eta)%R).
  { intros r. replace (r - r)%R with 0%R by ring. rewrite Rabs_R0.
    pose proof (Rabs_pos r). nra. }
  destruct x as [sx|sx| |sx mx ex], y as [sy|sy| |sy my ey];
    try discriminate; try (destruct sx, sy; discriminate).
  - intros _. replace (SF2R (SF64add _ _)) with 0%R by (destruct sx, sy; reflexivity).
    simpl. rewrite Rplus_0_r. apply Hz.
  - intros _. simpl SF64add. simpl (SF2R (S754_zero sx)). rewrite Rplus_0_l. apply Hz.
  - intros _. simpl SF64add. simpl (SF2R (S754_zero sy)). rewrite Rplus_0_r. apply Hz.
  - unfold SF64add, SFadd. intros Hf.
    apply binary_normalize_error in Hf.
    set (ez := Z.min ex ey) in *.
    pose proof (shl_align_value mx ex ez) as Hx.
    pose proof (shl_align_value my ey ez) as Hy.
    rewrite shl_align_exponent in Hx, Hy by (unfold ez; lia).
    match type of Hf with
    | context [(IZR ?z * bpow ez)%R] =>
        replace (IZR z * bpow ez)%R
          with (SF2R (S754_finite sx mx ex) + SF2R (S754_finite sy my ey))%R in Hf;
        [exact Hf|]
    end.
    rewrite plus_IZR, !cond_Zopp_IZR. simpl SF2R. rewrite <- Hx, <- Hy.
    destruct sx, sy; simpl; ring.
Qed.

(** A finite product or sum has finite operands: infinities and NaN never
    turn back into numbers. *)
Lemma mul_finite x y : finite (x * y) -> finite x /\ finite y.
Proof. rewrite !finite_SF, mul_spec. apply SFmul_finite. Qed.

Lemma add_finite x y : finite (x + y) -> finite x /\ finite y.
Proof. rewrite !finite_SF, add_spec. apply SFadd_finite. Qed.

(** The rounding-error model of one operation. *)
Lemma mul_error x y :
  finite (x * y) ->
  (Rabs (val (x * y) - val x * val y) <= u * Rabs (val x * val y) + eta)%R.
Proof. rewrite finite_SF. unfold val. rewrite mul_spec. apply SFmul_error. Qed.

Lemma add_error x y :
  finite (x + y) ->
  (Rabs (val (x + y) - (val x + val y)) <= u * Rabs (val x + val y) + eta)%R.
Proof. rewrite finite_SF. unfold val. rewrite add_spec. apply SFadd_error. Qed.

End Doubles.

(** * Error analysis of the transform *)

Lemma u_bounds : 0 < u <= / 1024.
Proof.
  split; [apply bpow_gt_0|]. unfold u.
  apply Rle_trans with (bpow (-10)); [apply bpow_le; lia|].
  unfold bpow. simpl. apply Req_le. f_equal. lra.
Qed.

Lemma eta_gt_0 : 0 < eta.
Proof. apply bpow_gt_0. Qed.

Lemma Rabs_bound a b c : Rabs (a - b) <= c -> Rabs a <= Rabs b + c.
Proof.
  intros H. replace a with (b + (a - b)) at 1 by ring.
  eapply Rle_trans; [apply Rabs_triang|]. lra.
Qed.

Lemma dot2_error a b c d :
  finite (dot2 a b c d) ->
  Rabs (val (dot2 a b c d) - (val a * val b + val c * val d))
    <= 3 * u * (Rabs (val a * val b) + Rabs (val c * val d)) + 4 * eta.
Proof.
  unfold dot2. intros Hf.
  pose proof u_bounds as Hu. pose proof eta_gt_0 as Heta.
  destruct (add_finite _ _ Hf) as [Hp Hq].
  pose proof (add_error _ _ Hf) as Hr.
  pose proof (mul_error _ _ Hp) as Ep.
  pose proof (mul_error _ _ Hq) as Eq.
  set (P := val a * val b) in *. set (Q := val c * val d) in *.
  set (p := val (a * b)) in *. set (q := val (c * d)) in *.
  set (r := val (a * b + c * d)) in *.
  assert (Hpq : Rabs (p + q) <= (1 + u) * (Rabs P + Rabs Q) + 2 * eta).
  { replace (p + q) with ((P + Q) + ((p - P) + (q - Q))) by ring.
    eapply Rle_trans; [apply Rabs_triang|].
    pose proof (Rabs_triang P Q). pose proof (Rabs_triang (p - P) (q - Q)). lra. }
  replace (r - (P + Q)) with ((r - (p + q)) + ((p - P) + (q - Q))) by ring.
  eapply Rle_trans; [apply Rabs_triang|].
  pose proof (Rabs_triang (p - P) (q - Q)).
  pose proof (Rabs_pos P). pose proof (Rabs_pos Q).
  assert (H2 : u * Rabs (p + q) <= u * ((1 + u) * (Rabs P + Rabs Q) + 2 * eta))
    by (apply Rmult_le_compat_l; lra).
  assert (H3 : u * (u * (Rabs P + Rabs Q)) <= u * (/1024 * (Rabs P + Rabs Q)))
    by (apply Rmult_le_compat_l; [lra|apply Rmult_le_compat_r; lra]).
  assert (H4 : u * eta <= /1024 * eta) by (apply Rmult_le_compat_r; lra).
  assert (H5 : 0 <= u * (Rabs P + Rabs Q)) by (apply Rmult_le_pos; lra).
  lra.
Qed.

Lemma Rabs_mult_le a b A B : Rabs a <= A -> Rabs b <= B -> Rabs (a * b) <= A * B.
Proof.
  intros Ha Hb. rewrite Rabs_mult.
  pose proof (Rabs_pos a). pose proof (Rabs_pos b).
  apply Rmult_le_compat; assumption.
Qed.

(** A dot product whose first operands [p], [q] carry the errors [Ep], [Eq]. *)
Lemma dot2_perturbed r p q c s P Q Ep Eq :
  Rabs (r - (p * c + q * s)) <= 3 * u * (Rabs (p * c) + Rabs (q * s)) + 4 * eta ->
  Rabs (p - P) <= Ep -> Rabs (q - Q) <= Eq ->
  Rabs (r - (P * c + Q * s))
    <= (1 + 3 * u) * (Ep * Rabs c + Eq * Rabs s)
       + 3 * u * (Rabs P * Rabs c + Rabs Q * Rabs s) + 4 * eta.
Proof.
  intros Hr Hp Hq.
  pose proof u_bounds as Hu.
  pose proof (Rabs_pos c) as Hc. pose proof (Rabs_pos s) as Hs.
  pose proof (Rabs_bound _ _ _ Hp) as Hp'. pose proof (Rabs_bound _ _ _ Hq) as Hq'.
  assert (H1 : Rabs (p * c) <= (Rabs P + Ep) * Rabs c)
    by (rewrite Rabs_mult; apply Rmult_le_compat_r; assumption).
  assert (H2 : Rabs (q * s) <= (Rabs Q + Eq) * Rabs s)
    by (rewrite Rabs_mult; apply Rmult_le_compat_r; assumption).
  assert (H3 : Rabs ((p - P) * c) <= Ep * Rabs c)
    by (rewrite Rabs_mult; apply Rmult_le_compat_r; assumption).
  assert (H4 : Rabs ((q - Q) * s) <= Eq * Rabs s)
    by (rewrite Rabs_mult; apply Rmult_le_compat_r; assumption).
  replace (r - (P * c + Q * s))
    with ((r - (p * c + q * s)) + ((p - P) * c + (q - Q) * s)) by ring.
  eapply Rle_trans; [apply Rabs_triang|].
  pose proof (Rabs_triang ((p - P) * c) ((q - Q) * s)) as H5.
  assert (H6 : 3 * u * (Rabs (p * c) + Rabs (q * s))
               <= 3 * u * ((Rabs P + Ep) * Rabs c + (Rabs Q + Eq) * Rabs s))
    by (apply Rmult_le_compat_l; lra).
  lra.
Qed.

Section Transform.
Variables (vx vy vtheta : double) (r : Rotation2d).
Let X := val vx.
Let Y := val vy.
Let C := val (Cos r).
Let S := val (Sin r).

Lemma dx_error :
  finite (dx (FromFieldRelativeSpeeds vx vy vtheta r)) ->
  Rabs (val (dx (FromFieldRelativeSpeeds vx vy vtheta r)) - (X * C + Y * S))
    <= 3 * u * (Rabs (X * C) + Rabs (Y * S)) + 4 * eta.
Proof. apply (dot2_error vx (Cos r) vy (Sin r)). Qed.

Lemma dy_error :
  finite (dy (FromFieldRelativeSpeeds vx vy vtheta r)) ->
  Rabs (val (dy (FromFieldRelativeSpeeds vx vy vtheta r)) - (- X * S + Y * C))
    <= 3 * u * (Rabs (X * S) + Rabs (Y * C)) + 4 * eta.
Proof.
  intros H. pose proof (dot2_error (- vx)%float (Sin r) vy (Cos r) H) as E.
  rewrite val_opp in E. fold X Y C S in E.
  replace (Rabs (- X * S)) with (Rabs (X * S)) in E
    by (rewrite <- Rabs_Ropp; f_equal; ring).
  exact E.
Qed.
End Transform.

Lemma rotate_forward_dot2 p r :
  rotate_forward p r =
    (dot2 (dx p) (Cos r) (- dy p)%float (Sin r), dot2 (dx p) (Sin r) (dy p) (Cos r)).
Proof.
  unfold rotate_forward, dot2. rewrite sub_add_opp, mul_opp_l. reflexivity.
Qed.

Lemma dot2_finite a b c d :
  finite (dot2 a b c d) -> finite a /\ finite b /\ finite c /\ finite d.
Proof.
  intros H. apply add_finite in H. destruct H as [H1 H2].
  apply mul_finite in H1, H2. tauto.
Qed.

(** C2 (amended). For a well-formed heading, rotating the pair [(dx, dy)] of
    the transform forward by the same heading recovers [(vx, vy)] within
    [32 u (|vx| + |vy|) + 16 eta], whenever the two recovered doubles are
    finite (no overflow on the way). *)
Theorem round_trip_within_tolerance vx vy vtheta theta :
  well_formed theta ->
  let p := FromFieldRelativeSpeeds vx vy vtheta theta in
  finite (fst (rotate_forward p theta)) ->
  finite (snd (rotate_forward p theta)) ->
  Rabs (val (fst (rotate_forward p theta)) - val vx)
    <= 32 * u * (Rabs (val vx) + Rabs (val vy)) + 16 * eta /\
  Rabs (val (snd (rotate_forward p theta)) - val vy)
    <= 32 * u * (Rabs (val vx) + Rabs (val vy)) + 16 * eta.
Proof.
  intros (HC & HS & HCS) p. rewrite rotate_forward_dot2. cbn [fst snd].
  intros Hfx Hfy.
  pose proof u_bounds as Hu. pose proof eta_gt_0 as Heta.
  pose proof (dot2_finite _ _ _ _ Hfy) as (Fdx & _ & Fdy & _).
  pose proof (dx_error vx vy vtheta theta Fdx) as Edx.
  pose proof (dy_error vx vy vtheta theta Fdy) as Edy.
  pose proof (dot2_error _ _ _ _ Hfx) as Ex.
  pose proof (dot2_error _ _ _ _ Hfy) as Ey.
  rewrite val_opp in Ex. fold p in Edx, Edy.
  set (X := val vx) in *. set (Y := val vy) in *.
  set (C := val (Cos theta)) in *. set (S := val (Sin theta)) in *.
  set (Dx := val (dx p)) in *. set (Dy := val (dy p)) in *.
  pose proof (Rabs_pos X) as HX. pose proof (Rabs_pos Y) as HY.
  set (E := 3 * u * (Rabs X + Rabs Y) + 4 * eta).
  assert (HXC : Rabs (X * C) <= Rabs X) by
    (rewrite <- (Rmult_1_r (Rabs X)); apply Rabs_mult_le; lra).
  assert (HXS : Rabs (X * S) <= Rabs X) by
    (rewrite <- (Rmult_1_r (Rabs X)); apply Rabs_mult_le; lra).
  assert (HYC : Rabs (Y * C) <= Rabs Y) by
    (rewrite <- (Rmult_1_r (Rabs Y)); apply Rabs_mult_le; lra).
  assert (HYS : Rabs (Y * S) <= Rabs Y) by
    (rewrite <- (Rmult_1_r (Rabs Y)); apply Rabs_mult_le; lra).
  assert (Edx' : Rabs (Dx - (X * C + Y * S)) <= E).
  { unfold E. apply Rle_trans with (1 := Edx).
    apply Rplus_le_compat_r, Rmult_le_compat_l; lra. }
  assert (Edy' : Rabs (Dy - (- X * S + Y * C)) <= E).
  { unfold E. apply Rle_trans with (1 := Edy).
    apply Rplus_le_compat_r, Rmult_le_compat_l; lra. }
  assert (Edy'' : Rabs (- Dy - (X * S - Y * C)) <= E).
  { replace (- Dy - (X * S - Y * C)) with (- (Dy - (- X * S + Y * C))) by ring.
    rewrite Rabs_Ropp. exact Edy'. }
  assert (HP : Rabs (X * C + Y * S) <= Rabs X + Rabs Y)
    by (eapply Rle_trans; [apply Rabs_triang|lra]).
  assert (HQ : Rabs (X * S - Y * C) <= Rabs X + Rabs Y).
  { unfold Rminus. eapply Rle_trans; [apply Rabs_triang|]. rewrite Rabs_Ropp. lra. }
  assert (HQ' : Rabs (- X * S + Y * C) <= Rabs X + Rabs Y).
  { replace (- X * S + Y * C) with (- (X * S - Y * C)) by ring. rewrite Rabs_Ropp. exact HQ. }
  assert (HE : 0 <= E) by (unfold E; nra).
  assert (Hmain : forall c s P Q, Rabs c <= 1 -> Rabs s <= 1 ->
            Rabs P <= Rabs X + Rabs Y -> Rabs Q <= Rabs X + Rabs Y ->
            (1 + 3 * u) * (E * Rabs c + E * Rabs s)
              + 3 * u * (Rabs P * Rabs c + Rabs Q * Rabs s) + 4 * eta
            <= 24 * u * (Rabs X + Rabs Y) + 16 * eta).
  { intros c s P Q Hc Hs HPb HQb.
    pose proof (Rabs_pos c). pose proof (Rabs_pos s).
    pose proof (Rabs_pos P). pose proof (Rabs_pos Q).
    assert (E * Rabs c <= E) by nra. assert (E * Rabs s <= E) by nra.
    assert (Rabs P * Rabs c <= Rabs X + Rabs Y) by nra.
    assert (Rabs Q * Rabs s <= Rabs X + Rabs Y) by nra.
    assert (0 <= u * (Rabs X + Rabs Y)) by nra.
    assert (u * E <= / 1024 * E) by nra.
    assert (u * (Rabs P * Rabs c + Rabs Q * Rabs s) <= u * (2 * (Rabs X + Rabs Y))) by nra.
    unfold E in *. nra. }
  assert (HX8 : Rabs (X * (C * C + S * S - 1)) <= 8 * u * (Rabs X + Rabs Y)).
  { rewrite Rabs_mult. nra. }
  assert (HY8 : Rabs (Y * (C * C + S * S - 1)) <= 8 * u * (Rabs X + Rabs Y)).
  { rewrite Rabs_mult. nra. }
  split.
  - pose proof (dot2_perturbed _ _ _ _ _ _ _ _ _ Ex Edx' Edy'') as B.
    pose proof (Hmain C S _ _ HC HS HP HQ) as B'.
    replace (val (dot2 (dx p) (Cos theta) (- dy p)%float (Sin theta)) - X) with
      ((val (dot2 (dx p) (Cos theta) (- dy p)%float (Sin theta))
          - ((X * C + Y * S) * C + (X * S - Y * C) * S))
       + X * (C * C + S * S - 1)) by ring.
    eapply Rle_trans; [apply Rabs_triang|]. lra.
  - pose proof (dot2_perturbed _ _ _ _ _ _ _ _ _ Ey Edx' Edy') as B.
    pose proof (Hmain S C _ _ HS HC HP HQ') as B'.
    replace (val (dot2 (dx p) (Sin theta) (dy p) (Cos theta)) - Y) with
      ((val (dot2 (dx p) (Sin theta) (dy p) (Cos theta))
          - ((X * C + Y * S) * S + (- X * S + Y * C) * C))
       + Y * (C * C + S * S - 1)) by ring.
    eapply Rle_trans; [apply Rabs_triang|]. lra.
Qed.

Lemma bpow_opp k : (0 <= k)%Z -> bpow (- k) = / IZR (2 ^ k).
Proof.
  intros H. rewrite <- bpow_IZR by assumption.
  apply Rmult_eq_reg_l with (bpow k); [|apply Rgt_not_eq, bpow_gt_0].
  rewrite <- bpow_add, Rinv_r by (apply Rgt_not_eq, bpow_gt_0).
  replace (k + - k)%Z with 0%Z by lia. reflexivity.
Qed.

Lemma u_value : u = / 9007199254740992.
Proof. unfold u. apply (bpow_opp 53). lia. Qed.

Lemma val_Cos_3_4_5 : val (Cos heading_3_4_5) = 5404319552844595 / 9007199254740992.
Proof.
  unfold val. change (Prim2SF (Cos heading_3_4_5)) with (S754_finite false 5404319552844595 (-53)).
  cbn [SF2R cond_Ropp]. change (bpow (-53)) with u. rewrite u_value. reflexivity.
Qed.

Lemma val_Sin_3_4_5 : val (Sin heading_3_4_5) = 7205759403792794 / 9007199254740992.
Proof.
  unfold val. change (Prim2SF (Sin heading_3_4_5)) with (S754_finite false 7205759403792794 (-53)).
  cbn [SF2R cond_Ropp]. change (bpow (-53)) with u. rewrite u_value. reflexivity.
Qed.

Lemma well_formed_3_4_5 : well_formed heading_3_4_5.
Proof.
  unfold well_formed. rewrite val_Cos_3_4_5, val_Sin_3_4_5, u_value.
  repeat split; apply Rabs_le; lra.
Qed.

Lemma round_trip_witness :
  Rabs (val (fst (rotate_forward (FromFieldRelativeSpeeds 1 1 0 heading_3_4_5) heading_3_4_5)) - val 1)
    <= 32 * u * (Rabs (val 1) + Rabs (val 1)) + 16 * eta /\
  Rabs (val (snd (rotate_forward (FromFieldRelativeSpeeds 1 1 0 heading_3_4_5) heading_3_4_5)) - val 1)
    <= 32 * u * (Rabs (val 1) + Rabs (val 1)) + 16 * eta.
Proof.
  apply (round_trip_within_tolerance 1%float 1%float 0%float heading_3_4_5 well_formed_3_4_5);
    vm_compute; reflexivity.
Defined.

Lemma Rabs_le_inv a b : Rabs a <= b -> - b <= a <= b.
Proof. unfold Rabs. destruct (Rcase_abs a); lra. Qed.

Lemma eta_u : eta = u * bpow (-1022).
Proof. unfold eta, u. rewrite <- bpow_add. reflexivity. Qed.

Lemma eta_bounds : 0 < eta <= u * / 1024.
Proof.
  split; [apply bpow_gt_0|]. rewrite eta_u.
  apply Rmult_le_compat_l; [apply Rlt_le, bpow_gt_0|].
  apply Rle_trans with (bpow (-10)); [apply bpow_le; lia|].
  unfold bpow. simpl. apply Req_le. f_equal. lra.
Qed.

(** An underflow error scaled by a magnitude is dominated by a relative error
    on its square, or is itself negligible. *)
Lemma eta_scaled M : 0 <= M -> eta * M <= u * (M * M) / 2 + eta.
Proof.
  intros HM. pose proof eta_bounds as [He1 He2]. pose proof u_bounds as Hu.
  rewrite eta_u in *. set (sg := bpow (-1022)) in *.
  assert (Hsg : 0 < sg <= / 1024).
  { split; [apply bpow_gt_0|]. apply Rmult_le_reg_l with u; lra. }
  destruct (Rle_lt_dec M 1) as [H1|H1].
  - assert (0 <= u * (M * M)) by (apply Rmult_le_pos; nra).
    assert (u * sg * M <= u * sg * 1) by (apply Rmult_le_compat_l; nra). lra.
  - assert (sg * M <= M * M / 2) by nra.
    assert (u * (sg * M) <= u * (M * M / 2)) by (apply Rmult_le_compat_l; lra).
    nra.
Qed.

Lemma norm_bound X Y C S Dx Dy n1 n2 :
  Rabs C <= 1 -> Rabs S <= 1 -> Rabs (C * C + S * S - 1) <= 8 * u ->
  Rabs (Dx - (X * C + Y * S)) <= 3 * u * (Rabs X + Rabs Y) + 4 * eta ->
  Rabs (Dy - (- X * S + Y * C)) <= 3 * u * (Rabs X + Rabs Y) + 4 * eta ->
  Rabs (n1 - (Dx * Dx + Dy * Dy)) <= 3 * u * (Rabs (Dx * Dx) + Rabs (Dy * Dy)) + 4 * eta ->
  Rabs (n2 - (X * X + Y * Y)) <= 3 * u * (Rabs (X * X) + Rabs (Y * Y)) + 4 * eta ->
  Rabs (n1 - n2) <= 64 * u * (X * X + Y * Y) + 64 * eta.
Proof.
  intros HC HS HCS HDx HDy Hn1 Hn2.
  pose proof u_bounds as Hu. pose proof eta_bounds as Heta.
  set (M := Rabs X + Rabs Y) in *. set (N := X * X + Y * Y) in *.
  set (E := 3 * u * M + 4 * eta) in *.
  assert (HM : 0 <= M) by (unfold M; pose proof (Rabs_pos X); pose proof (Rabs_pos Y); lra).
  assert (HN : 0 <= N) by (unfold N; nra).
  assert (HMN : M * M <= 2 * N).
  { unfold M, N. 
    assert (Rabs X * Rabs X = X * X) by (rewrite <- Rabs_mult; apply Rabs_pos_eq; nra).
    assert (Rabs Y * Rabs Y = Y * Y) by (rewrite <- Rabs_mult; apply Rabs_pos_eq; nra).
    pose proof (Rle_0_sqr (Rabs X - Rabs Y)) as Hs. unfold Rsqr in Hs. lra. }
  assert (HE : 0 <= E) by (unfold E; nra).
  assert (HEM : E <= M / 256 + 4 * eta) by (unfold E; nra).
  pose proof (eta_scaled M HM) as HetaM.
  set (P := X * C + Y * S) in *. set (Q := - X * S + Y * C) in *.
  assert (HP : Rabs P <= M).
  { unfold P, M. eapply Rle_trans; [apply Rabs_triang|].
    rewrite !Rabs_mult. pose proof (Rabs_pos X). pose proof (Rabs_pos Y). nra. }
  assert (HQ : Rabs Q <= M).
  { unfold Q, M. eapply Rle_trans; [apply Rabs_triang|].
    rewrite !Rabs_mult, Rabs_Ropp. pose proof (Rabs_pos X). pose proof (Rabs_pos Y). nra. }
  assert (HPQ : P * P + Q * Q = N * (C * C + S * S)) by (unfold P, Q, N; ring).
  assert (HNC : Rabs (P * P + Q * Q - N) <= 8 * u * N).
  { rewrite HPQ. replace (N * (C * C + S * S) - N) with (N * (C * C + S * S - 1)) by ring.
    rewrite Rabs_mult, (Rabs_pos_eq N) by assumption. nra. }
  (* squares of the perturbed components *)
  assert (Hsq : forall D P0, Rabs P0 <= M -> Rabs (D - P0) <= E ->
            Rabs (D * D - P0 * P0) <= 2 * E * M + E * E).
  { intros D P0 H0 HD. apply Rabs_le. apply Rabs_le_inv in H0, HD. nra. }
  pose proof (Hsq Dx P HP HDx) as SDx. pose proof (Hsq Dy Q HQ HDy) as SDy.
  assert (HEE : 2 * E * M + E * E <= 21 * u * N + 20 * eta).
  { assert (E * M <= 3 * u * (M * M) + 4 * (u * (M * M) / 2 + eta)) by (unfold E; nra).
    assert (0 <= u * (M * M)) by (apply Rmult_le_pos; nra).
    assert (u * (M * M) <= u * (2 * N)) by (apply Rmult_le_compat_l; lra).
    assert (E * E <= E * (M / 256 + 4 * eta)) by (apply Rmult_le_compat_l; lra).
    assert (E * eta <= E * /1024) by (apply Rmult_le_compat_l; lra).
    assert (0 <= u * N) by (apply Rmult_le_pos; lra).
    nra. }
  assert (HD2 : Rabs (Dx * Dx + Dy * Dy - N) <= 50 * u * N + 40 * eta).
  { replace (Dx * Dx + Dy * Dy - N)
      with ((Dx * Dx - P * P) + (Dy * Dy - Q * Q) + (P * P + Q * Q - N)) by ring.
    eapply Rle_trans; [apply Rabs_triang|].
    eapply Rle_trans; [apply Rplus_le_compat_r, Rabs_triang|]. lra. }
  assert (Hsum : Rabs (Dx * Dx) + Rabs (Dy * Dy) <= 2 * N + 40 * eta).
  { rewrite !Rabs_pos_eq by nra. apply Rabs_le_inv in HD2.
    assert (0 <= u * N) by (apply Rmult_le_pos; lra). 
    assert (u * N <= /1024 * N) by (apply Rmult_le_compat_r; lra). lra. }
  assert (Hxx : Rabs (X * X) + Rabs (Y * Y) = N) by (rewrite !Rabs_pos_eq by nra; reflexivity).
  rewrite Hxx in Hn2.
  replace (n1 - n2) with ((n1 - (Dx * Dx + Dy * Dy)) + (Dx * Dx + Dy * Dy - N) - (n2 - N)) by ring.
  eapply Rle_trans; [apply Rabs_triang|]. rewrite Rabs_Ropp.
  eapply Rle_trans; [apply Rplus_le_compat_r, Rabs_triang|].
  assert (3 * u * (Rabs (Dx * Dx) + Rabs (Dy * Dy)) <= 3 * u * (2 * N + 40 * eta))
    by (apply Rmult_le_compat_l; lra).
  assert (u * eta <= /1024 * eta) by (apply Rmult_le_compat_r; lra).
  assert (0 <= u * N) by (apply Rmult_le_pos; lra).
  lra.
Qed.

(** The error of a two-term dot product whose first operands approximate [P]
    and [Q] within [E], against second operands of magnitude at most 1. *)
Lemma dot2_stage (p c q s : double) (P Q E B : R) :
  finite (dot2 p c q s) ->
  Rabs (val c) <= 1 -> Rabs (val s) <= 1 ->
  Rabs (val p - P) <= E -> Rabs (val q - Q) <= E ->
  Rabs P <= B -> Rabs Q <= B ->
  Rabs (val (dot2 p c q s) - (P * val c + Q * val s))
    <= 2 * (1 + 3 * u) * E + 6 * u * B + 4 * eta.
Proof.
  intros Hf Hc Hs Hp Hq HP HQ.
  pose proof (dot2_perturbed _ _ _ _ _ _ _ _ _ (dot2_error _ _ _ _ Hf) Hp Hq) as H.
  pose proof u_bounds as Hu.
  pose proof (Rabs_pos (val c)). pose proof (Rabs_pos (val s)).
  pose proof (Rabs_pos P). pose proof (Rabs_pos Q).
  pose proof (Rabs_pos (val p - P)) as HE.
  assert (E * Rabs (val c) <= E) by nra. assert (E * Rabs (val s) <= E) by nra.
  assert (Rabs P * Rabs (val c) <= B) by nra.
  assert (Rabs Q * Rabs (val s) <= B) by nra.
  assert ((1 + 3 * u) * (E * Rabs (val c) + E * Rabs (val s)) <= (1 + 3 * u) * (2 * E))
    by (apply Rmult_le_compat_l; lra).
  assert (3 * u * (Rabs P * Rabs (val c) + Rabs Q * Rabs (val s)) <= 3 * u * (2 * B))
    by (apply Rmult_le_compat_l; lra).
  lra.
Qed.

(** The same with the approximate operands on the right: [a * p + b * q]. *)
Lemma dot2_stage_r (a p b q : double) (P Q E B : R) :
  finite (dot2 a p b q) ->
  Rabs (val p - P) <= E -> Rabs (val q - Q) <= E ->
  Rabs P <= B -> Rabs Q <= B ->
  Rabs (val (dot2 a p b q) - (val a * P + val b * Q))
    <= ((1 + 3 * u) * E + 3 * u * B) * (Rabs (val a) + Rabs (val b)) + 4 * eta.
Proof.
  intros Hf Hp Hq HP HQ.
  pose proof (dot2_error _ _ _ _ Hf) as H0.
  rewrite (Rmult_comm (val a)), (Rmult_comm (val b)) in H0.
  pose proof (dot2_perturbed _ _ _ _ _ _ _ _ _ H0 Hp Hq) as H.
  rewrite (Rmult_comm (val a)), (Rmult_comm (val b)).
  pose proof u_bounds as Hu.
  pose proof (Rabs_pos (val a)). pose proof (Rabs_pos (val b)).
  pose proof (Rabs_pos P). pose proof (Rabs_pos Q).
  pose proof (Rabs_pos (val p - P)) as HE.
  assert (E * Rabs (val a) + E * Rabs (val b) = E * (Rabs (val a) + Rabs (val b))) by ring.
  assert (Rabs P * Rabs (val a) + Rabs Q * Rabs (val b) <= B * (Rabs (val a) + Rabs (val b))) by nra.
  assert (3 * u * (Rabs P * Rabs (val a) + Rabs Q * Rabs (val b))
          <= 3 * u * (B * (Rabs (val a) + Rabs (val b))))
    by (apply Rmult_le_compat_l; lra).
  nra.
Qed.

Section Transform_wf.
Variables (vx vy vtheta : double) (r : Rotation2d).
Hypothesis HC : Rabs (val (Cos r)) <= 1.
Hypothesis HS : Rabs (val (Sin r)) <= 1.

Lemma exact_dx_le : Rabs (val vx * val (Cos r) + val vy * val (Sin r)) <= Rabs (val vx) + Rabs (val vy).
Proof.
  eapply Rle_trans; [apply Rabs_triang|]. rewrite !Rabs_mult.
  pose proof (Rabs_pos (val vx)). pose proof (Rabs_pos (val vy)).
  pose proof (Rabs_pos (val (Cos r))). pose proof (Rabs_pos (val (Sin r))). nra.
Qed.

Lemma exact_dy_le : Rabs (- val vx * val (Sin r) + val vy * val (Cos r)) <= Rabs (val vx) + Rabs (val vy).
Proof.
  eapply Rle_trans; [apply Rabs_triang|]. rewrite !Rabs_mult, Rabs_Ropp.
  pose proof (Rabs_pos (val vx)). pose proof (Rabs_pos (val vy)).
  pose proof (Rabs_pos (val (Cos r))). pose proof (Rabs_pos (val (Sin r))). nra.
Qed.

Lemma dx_error_unit :
  finite (dx (FromFieldRelativeSpeeds vx vy vtheta r)) ->
  Rabs (val (dx (FromFieldRelativeSpeeds vx vy vtheta r))
        - (val vx * val (Cos r) + val vy * val (Sin r)))
    <= 3 * u * (Rabs (val vx) + Rabs (val vy)) + 4 * eta.
Proof.
  intros H. apply Rle_trans with (1 := dx_error vx vy vtheta r H).
  pose proof u_bounds.
  apply Rplus_le_compat_r, Rmult_le_compat_l; [lra|].
  rewrite !Rabs_mult.
  pose proof (Rabs_pos (val vx)). pose proof (Rabs_pos (val vy)).
  pose proof (Rabs_pos (val (Cos r))). pose proof (Rabs_pos (val (Sin r))). nra.
Qed.

Lemma dy_error_unit :
  finite (dy (FromFieldRelativeSpeeds vx vy vtheta r)) ->
  Rabs (val (dy (FromFieldRelativeSpeeds vx vy vtheta r))
        - (- val vx * val (Sin r) + val vy * val (Cos r)))
    <= 3 * u * (Rabs (val vx) + Rabs (val vy)) + 4 * eta.
Proof.
  intros H. apply Rle_trans with (1 := dy_error vx vy vtheta r H).
  pose proof u_bounds.
  apply Rplus_le_compat_r, Rmult_le_compat_l; [lra|].
  rewrite !Rabs_mult.
  pose proof (Rabs_pos (val vx)). pose proof (Rabs_pos (val vy)).
  pose proof (Rabs_pos (val (Cos r))). pose proof (Rabs_pos (val (Sin r))). nra.
Qed.
End Transform_wf.

Lemma norm2_dot2 x y : norm2 x y = dot2 x x y y.
Proof. reflexivity. Qed.

(** C5 (amended). For a well-formed heading the squared norm of [(dx, dy)],
    computed in doubles, is within [64 u (vx^2 + vy^2) + 64 eta] of the
    squared norm of [(vx, vy)], whenever both are finite. *)
Theorem norm_preserved_within_tolerance vx vy vtheta r :
  well_formed r ->
  let p := FromFieldRelativeSpeeds vx vy vtheta r in
  finite (norm2 (dx p) (dy p)) -> finite (norm2 vx vy) ->
  Rabs (val (norm2 (dx p) (dy p)) - val (norm2 vx vy))
    <= 64 * u * (val vx * val vx + val vy * val vy) + 64 * eta.
Proof.
  intros (HC & HS & HCS) p H1 H2. rewrite !norm2_dot2 in *.
  pose proof (dot2_finite _ _ _ _ H1) as (Fdx & _ & Fdy & _).
  apply (norm_bound (val vx) (val vy) (val (Cos r)) (val (Sin r)) (val (dx p)) (val (dy p)));
    trivial.
  - apply dx_error_unit; assumption.
  - apply dy_error_unit; assumption.
  - apply dot2_error, H1.
  - apply dot2_error, H2.
Qed.

Lemma norm_witness :
  Rabs (val (norm2 (dx (FromFieldRelativeSpeeds 1 1 0 heading_3_4_5))
                   (dy (FromFieldRelativeSpeeds 1 1 0 heading_3_4_5)))
        - val (norm2 1 1))
    <= 64 * u * (val 1 * val 1 + val 1 * val 1) + 64 * eta.
Proof.
  apply (norm_preserved_within_tolerance 1%float 1%float 0%float heading_3_4_5 well_formed_3_4_5);
    vm_compute; reflexivity.
Defined.

Lemma scale_bound K M L R D d :
  0 <= M ->
  Rabs (L - K * D) <= 2 * (1 + 3 * u) * (u * (Rabs K * M) + eta) + 6 * u * (Rabs K * M) + 4 * eta ->
  Rabs (d - D) <= 3 * u * M + 4 * eta ->
  Rabs D <= M ->
  Rabs (R - K * d) <= u * Rabs (K * d) + eta ->
  Rabs (L - R) <= 16 * u * Rabs K * M + 8 * eta * (1 + Rabs K).
Proof.
  intros HM HL Hd HD HR.
  pose proof u_bounds as Hu. pose proof eta_gt_0 as Heta.
  pose proof (Rabs_pos K) as HK.
  pose proof (Rabs_bound _ _ _ Hd) as Hd'.
  assert (HKd : Rabs (K * d) <= Rabs K * (M + (3 * u * M + 4 * eta))).
  { rewrite Rabs_mult. apply Rmult_le_compat_l; lra. }
  assert (HKdD : Rabs (K * d - K * D) <= Rabs K * (3 * u * M + 4 * eta)).
  { rewrite <- Rmult_minus_distr_l, Rabs_mult. apply Rmult_le_compat_l; lra. }
  replace (L - R) with ((L - K * D) - (R - K * d) - (K * d - K * D)) by ring.
  unfold Rminus at 1 2. 
  eapply Rle_trans; [apply Rabs_triang|]. rewrite Rabs_Ropp.
  eapply Rle_trans; [apply Rplus_le_compat_r, Rabs_triang|]. rewrite Rabs_Ropp.
  set (KM := Rabs K * M) in *.
  assert (0 <= KM) by (unfold KM; nra).
  assert (u * Rabs (K * d) <= u * (Rabs K * (M + (3 * u * M + 4 * eta))))
    by (apply Rmult_le_compat_l; lra).
  assert (0 <= u * KM) by nra.
  assert (u * (u * KM) <= /1024 * (u * KM)) by nra.
  assert (0 <= eta * Rabs K) by nra.
  assert (u * (eta * Rabs K) <= /1024 * (eta * Rabs K)) by nra.
  assert (u * eta <= /1024 * eta) by nra.
  unfold KM in *. nra.
Qed.

Lemma add_bound M L R D1 D2 d1 d2 M1 M2 :
  0 <= M1 -> 0 <= M2 -> M = M1 + M2 ->
  Rabs (L - (D1 + D2)) <= 2 * (1 + 3 * u) * (u * M + eta) + 6 * u * M + 4 * eta ->
  Rabs (d1 - D1) <= 3 * u * M1 + 4 * eta -> Rabs D1 <= M1 ->
  Rabs (d2 - D2) <= 3 * u * M2 + 4 * eta -> Rabs D2 <= M2 ->
  Rabs (R - (d1 + d2)) <= u * Rabs (d1 + d2) + eta ->
  Rabs (L - R) <= 16 * u * M + 24 * eta.
Proof.
  intros HM1 HM2 -> HL Hd1 HD1 Hd2 HD2 HR.
  pose proof u_bounds as Hu. pose proof eta_gt_0 as Heta.
  pose proof (Rabs_bound _ _ _ Hd1) as Hd1'. pose proof (Rabs_bound _ _ _ Hd2) as Hd2'.
  pose proof (Rabs_triang d1 d2) as Ht.
  pose proof (Rabs_triang (d1 - D1) (d2 - D2)) as Ht'.
  replace (L - R) with ((L - (D1 + D2)) - (R - (d1 + d2)) - ((d1 - D1) + (d2 - D2))) by ring.
  unfold Rminus at 1 2.
  eapply Rle_trans; [apply Rabs_triang|]. rewrite Rabs_Ropp.
  eapply Rle_trans; [apply Rplus_le_compat_r, Rabs_triang|]. rewrite Rabs_Ropp.
  assert (u * Rabs (d1 + d2) <= u * ((1 + 3 * u) * (M1 + M2) + 8 * eta))
    by (apply Rmult_le_compat_l; lra).
  assert (0 <= u * (M1 + M2)) by nra.
  assert (u * (u * (M1 + M2)) <= /1024 * (u * (M1 + M2))) by nra.
  assert (u * eta <= /1024 * eta) by nra.
  lra.
Qed.

Lemma comp_bound M L R Ex :
  0 <= M ->
  Rabs (L - Ex) <= 2 * (1 + 3 * u) * (3 * u * M + 4 * eta) + 6 * u * M + 4 * eta ->
  Rabs (R - Ex) <= ((1 + 3 * u) * (6 * u + 4 * eta) + 3 * u * 2) * M + 4 * eta ->
  Rabs (L - R) <= 32 * u * M + 24 * eta * (1 + M).
Proof.
  intros HM HL HR.
  pose proof u_bounds as Hu. pose proof eta_bounds as Heta.
  replace (L - R) with ((L - Ex) - (R - Ex)) by ring. unfold Rminus at 1.
  eapply Rle_trans; [apply Rabs_triang|]. rewrite Rabs_Ropp.
  assert (0 <= u * M) by nra.
  assert (u * (u * M) <= /1024 * (u * M)) by nra.
  assert (u * eta <= /1024 * eta) by nra.
  assert (0 <= eta * M) by nra.
  assert (u * (eta * M) <= /1024 * (eta * M)) by nra.
  nra.
Qed.

Section Components.
Variables c s : double.
Hypothesis Hc : Rabs (val c) <= 1.
Hypothesis Hs : Rabs (val s) <= 1.

Lemma exact_le A B : Rabs (A * val c + B * val s) <= Rabs A + Rabs B.
Proof.
  eapply Rle_trans; [apply Rabs_triang|]. rewrite !Rabs_mult.
  pose proof (Rabs_pos A). pose proof (Rabs_pos B).
  pose proof (Rabs_pos (val c)). pose proof (Rabs_pos (val s)). nra.
Qed.

Lemma dot2_error_unit a b :
  finite (dot2 a c b s) ->
  Rabs (val (dot2 a c b s) - (val a * val c + val b * val s))
    <= 3 * u * (Rabs (val a) + Rabs (val b)) + 4 * eta.
Proof.
  intros H. apply Rle_trans with (1 := dot2_error _ _ _ _ H).
  pose proof u_bounds.
  apply Rplus_le_compat_r, Rmult_le_compat_l; [lra|].
  rewrite !Rabs_mult.
  pose proof (Rabs_pos (val a)). pose proof (Rabs_pos (val b)).
  pose proof (Rabs_pos (val c)). pose proof (Rabs_pos (val s)). nra.
Qed.

(** Scaling the inputs of a component by [k] against scaling its result. *)
Lemma scale_component k p q a b :
  Rabs (val p - val k * val a) <= u * Rabs (val k * val a) + eta ->
  Rabs (val q - val k * val b) <= u * Rabs (val k * val b) + eta ->
  finite (dot2 p c q s) -> finite (k * dot2 a c b s)%float ->
  Rabs (val (dot2 p c q s) - val (k * dot2 a c b s)%float)
    <= 16 * u * Rabs (val k) * (Rabs (val a) + Rabs (val b))
       + 8 * eta * (1 + Rabs (val k)).
Proof.
  intros Hp Hq Hin Hout.
  pose proof u_bounds as Hu.
  pose proof (Rabs_pos (val a)) as Ha. pose proof (Rabs_pos (val b)) as Hb.
  pose proof (Rabs_pos (val k)) as Hk.
  set (M := Rabs (val a) + Rabs (val b)).
  assert (HKA : Rabs (val k * val a) <= Rabs (val k) * M) by (rewrite Rabs_mult; unfold M; nra).
  assert (HKB : Rabs (val k * val b) <= Rabs (val k) * M) by (rewrite Rabs_mult; unfold M; nra).
  assert (Hp' : Rabs (val p - val k * val a) <= u * (Rabs (val k) * M) + eta) by nra.
  assert (Hq' : Rabs (val q - val k * val b) <= u * (Rabs (val k) * M) + eta) by nra.
  pose proof (dot2_stage _ _ _ _ _ _ _ _ Hin Hc Hs Hp' Hq' HKA HKB) as HL.
  destruct (mul_finite _ _ Hout) as [_ Hd].
  apply (scale_bound (val k) M _ _ (val a * val c + val b * val s) (val (dot2 a c b s))).
  - unfold M; lra.
  - replace (val k * (val a * val c + val b * val s))
      with (val k * val a * val c + val k * val b * val s) by ring. exact HL.
  - apply dot2_error_unit, Hd.
  - apply exact_le.
  - apply mul_error, Hout.
Qed.

(** Adding the inputs of two components against adding their results. *)
Lemma add_component p q a1 b1 a2 b2 :
  Rabs (val p - (val a1 + val a2)) <= u * Rabs (val a1 + val a2) + eta ->
  Rabs (val q - (val b1 + val b2)) <= u * Rabs (val b1 + val b2) + eta ->
  finite (dot2 p c q s) -> finite (dot2 a1 c b1 s + dot2 a2 c b2 s)%float ->
  Rabs (val (dot2 p c q s) - val (dot2 a1 c b1 s + dot2 a2 c b2 s)%float)
    <= 16 * u * (Rabs (val a1) + Rabs (val b1) + Rabs (val a2) + Rabs (val b2))
       + 24 * eta.
Proof.
  intros Hp Hq Hin Hout.
  pose proof u_bounds as Hu.
  pose proof (Rabs_pos (val a1)). pose proof (Rabs_pos (val b1)).
  pose proof (Rabs_pos (val a2)). pose proof (Rabs_pos (val b2)).
  pose (M1 := Rabs (val a1) + Rabs (val b1)). pose (M2 := Rabs (val a2) + Rabs (val b2)).
  pose (M := M1 + M2).
  pose proof (Rabs_triang (val a1) (val a2)) as HA.
  pose proof (Rabs_triang (val b1) (val b2)) as HB.
  assert (HA' : Rabs (val a1 + val a2) <= M) by (unfold M, M1, M2; lra).
  assert (HB' : Rabs (val b1 + val b2) <= M) by (unfold M, M1, M2; lra).
  assert (Hp' : Rabs (val p - (val a1 + val a2)) <= u * M + eta) by nra.
  assert (Hq' : Rabs (val q - (val b1 + val b2)) <= u * M + eta) by nra.
  pose proof (dot2_stage _ _ _ _ _ _ _ _ Hin Hc Hs Hp' Hq' HA' HB') as HL.
  destruct (add_finite _ _ Hout) as [Hd1 Hd2].
  replace (Rabs (val a1) + Rabs (val b1) + Rabs (val a2) + Rabs (val b2)) with M
    by (unfold M, M1, M2; ring).
  apply (add_bound M _ _ (val a1 * val c + val b1 * val s) (val a2 * val c + val b2 * val s)
           (val (dot2 a1 c b1 s)) (val (dot2 a2 c b2 s)) M1 M2).
  - unfold M1; lra.
  - unfold M2; lra.
  - reflexivity.
  - replace (val a1 * val c + val b1 * val s + (val a2 * val c + val b2 * val s))
      with ((val a1 + val a2) * val c + (val b1 + val b2) * val s) by ring. exact HL.
  - apply dot2_error_unit, Hd1.
  - apply exact_le.
  - apply dot2_error_unit, Hd2.
  - apply exact_le.
  - apply add_error, Hout.
Qed.

End Components.

Section Zero.
#[local] Open Scope float_scope.

(** A zero times a finite double is a zero, and so is a sum of two zeros. *)
Lemma zero_speeds_eqb r :
  finite (Cos r) -> finite (Sin r) ->
  ChassisSpeeds_eqb (FromFieldRelativeSpeeds 0 0 0 r) ChassisSpeeds_default = true.
Proof.
  rewrite !finite_SF. intros Hc Hs.
  unfold ChassisSpeeds_eqb, FromFieldRelativeSpeeds. cbn [dx dy dtheta ChassisSpeeds_default].
  rewrite !eqb_spec, !add_spec, !mul_spec, opp_spec.
  change (Prim2SF 0) with (S754_zero false).
  destruct (Prim2SF (Cos r)) as [sc|sc| |sc mc ec], (Prim2SF (Sin r)) as [ss|ss| |ss ms es];
    try discriminate; destruct sc, ss; reflexivity.
Qed.
End Zero.

(** C9 (amended). The transform is linear up to rounding.  For a heading whose
    cosine and sine lie in [[-1, 1]], scaling the three inputs by [k] against
    scaling the three results, and adding two input triples against adding
    their results, agree on [dtheta] exactly and on [dx], [dy] within a few
    units of roundoff of the input magnitudes, whenever the compared doubles
    are finite.  For every heading with finite cosine and sine, whatever
    their magnitude, the zero input gives a result that compares equal to
    the all-zero speeds. *)
Theorem linear_within_tolerance k vx vy vtheta vx' vy' vtheta' r :
  let scaled_in := FromFieldRelativeSpeeds (k * vx) (k * vy) (k * vtheta) r in
  let scaled_out := ChassisSpeeds_scale k (FromFieldRelativeSpeeds vx vy vtheta r) in
  let sum_in := FromFieldRelativeSpeeds (vx + vx') (vy + vy') (vtheta + vtheta') r in
  let sum_out := ChassisSpeeds_add (FromFieldRelativeSpeeds vx vy vtheta r)
                                   (FromFieldRelativeSpeeds vx' vy' vtheta' r) in
  (Rabs (val (Cos r)) <= 1 -> Rabs (val (Sin r)) <= 1 ->
   xy_finite scaled_in -> xy_finite scaled_out ->
   xy_within (16 * u * Rabs (val k) * (Rabs (val vx) + Rabs (val vy))
              + 8 * eta * (1 + Rabs (val k))) scaled_in scaled_out
   /\ dtheta scaled_in = dtheta scaled_out)
  /\ (Rabs (val (Cos r)) <= 1 -> Rabs (val (Sin r)) <= 1 ->
      xy_finite sum_in -> xy_finite sum_out ->
      xy_within (16 * u * (Rabs (val vx) + Rabs (val vy) + Rabs (val vx') + Rabs (val vy'))
                 + 24 * eta) sum_in sum_out
      /\ dtheta sum_in = dtheta sum_out)
  /\ (finite (Cos r) -> finite (Sin r) ->
      ChassisSpeeds_eqb (FromFieldRelativeSpeeds 0 0 0 r) ChassisSpeeds_default = true).
Proof.
  intros scaled_in scaled_out sum_in sum_out. split; [|split].
  - intros HC HS [Fx1 Fy1] [Fx2 Fy2].
    pose proof (dot2_finite _ _ _ _ Fx1) as (Fkx & _ & Fky & _).
    pose proof (mul_error _ _ Fkx) as Ekx. pose proof (mul_error _ _ Fky) as Eky.
    repeat split.
    + apply (scale_component _ _ HC HS k _ _ vx vy Ekx Eky Fx1 Fx2).
    + assert (Enkx : Rabs (val (- (k * vx))%float - val k * val (- vx)%float)
                     <= u * Rabs (val k * val (- vx)%float) + eta).
      { rewrite !val_opp.
        replace (- val (k * vx)%float - val k * - val vx)
          with (- (val (k * vx)%float - val k * val vx)) by ring.
        replace (val k * - val vx) with (- (val k * val vx)) by ring.
        rewrite !Rabs_Ropp. exact Ekx. }
      pose proof (scale_component _ _ HS HC k _ _ (- vx)%float vy Enkx Eky Fy1 Fy2) as H.
      rewrite val_opp, Rabs_Ropp in H. exact H.
  - intros HC HS [Fx3 Fy3] [Fx4 Fy4].
    pose proof (dot2_finite _ _ _ _ Fx3) as (Fsx & _ & Fsy & _).
    pose proof (add_error _ _ Fsx) as Esx. pose proof (add_error _ _ Fsy) as Esy.
    repeat split.
    + apply (add_component _ _ HC HS _ _ vx vy vx' vy' Esx Esy Fx3 Fx4).
    + assert (Ensx : Rabs (val (- (vx + vx'))%float
                           - (val (- vx)%float + val (- vx')%float))
                     <= u * Rabs (val (- vx)%float + val (- vx')%float) + eta).
      { rewrite !val_opp.
        replace (- val (vx + vx')%float - (- val vx + - val vx'))
          with (- (val (vx + vx')%float - (val vx + val vx'))) by ring.
        replace (- val vx + - val vx') with (- (val vx + val vx')) by ring.
        rewrite !Rabs_Ropp. exact Esx. }
      pose proof (add_component _ _ HS HC _ _ (- vx)%float vy (- vx')%float vy'
                    Ensx Esy Fy3 Fy4) as H.
      rewrite !val_opp, !Rabs_Ropp in H. exact H.
  - apply zero_speeds_eqb.
Qed.

(** The three parts at the heading of cosine 0.6 and sine 0.8, and the zero
    input once more at a heading outside the unit range: cosine 2, sine 3. *)
Lemma linear_witness :
  let k := 3%float in let r := heading_3_4_5 in
  ((xy_within (16 * u * Rabs (val k) * (Rabs (val 1) + Rabs (val 1))
               + 8 * eta * (1 + Rabs (val k)))
      (FromFieldRelativeSpeeds (k * 1) (k * 1) (k * 0) r)
      (ChassisSpeeds_scale k (FromFieldRelativeSpeeds 1 1 0 r))
    /\ dtheta (FromFieldRelativeSpeeds (k * 1) (k * 1) (k * 0) r)
       = dtheta (ChassisSpeeds_scale k (FromFieldRelativeSpeeds 1 1 0 r)))
   /\ (xy_within (16 * u * (Rabs (val 1) + Rabs (val 1) + Rabs (val 2) + Rabs (val 0))
                  + 24 * eta)
         (FromFieldRelativeSpeeds (1 + 2) (1 + 0) (0 + 0) r)
         (ChassisSpeeds_add (FromFieldRelativeSpeeds 1 1 0 r)
                            (FromFieldRelativeSpeeds 2 0 0 r))
       /\ dtheta (FromFieldRelativeSpeeds (1 + 2) (1 + 0) (0 + 0) r)
          = dtheta (ChassisSpeeds_add (FromFieldRelativeSpeeds 1 1 0 r)
                                      (FromFieldRelativeSpeeds 2 0 0 r)))
   /\ ChassisSpeeds_eqb (FromFieldRelativeSpeeds 0 0 0 r) ChassisSpeeds_default = true)
  /\ ChassisSpeeds_eqb (FromFieldRelativeSpeeds 0 0 0 {| Cos := 2%float; Sin := 3%float |})
       ChassisSpeeds_default = true.
Proof.
  cbv zeta. split.
  - destruct (linear_within_tolerance 3%float 1%float 1%float 0%float 2%float 0%float
                0%float heading_3_4_5) as (Hs & Ha & Hz).
    split; [|split].
    + apply Hs; try apply well_formed_3_4_5; split; reflexivity.
    + apply Ha; try apply well_formed_3_4_5; split; reflexivity.
    + apply Hz; reflexivity.
  - apply (linear_within_tolerance 0%float 0%float 0%float 0%float 0%float 0%float
             0%float {| Cos := 2%float; Sin := 3%float |}); reflexivity.
Defined.

Lemma Rotation2d_plus_dot2 a b :
  Rotation2d_plus a b =
    {| Cos := dot2 (Cos a) (Cos b) (- Sin a)%float (Sin b);
       Sin := dot2 (Sin a) (Cos b) (Cos a) (Sin b) |}.
Proof. unfold Rotation2d_plus, dot2. rewrite sub_add_opp, mul_opp_l. reflexivity. Qed.

Section Composition.
Variables a b : Rotation2d.
Hypothesis HCa : Rabs (val (Cos a)) <= 1.
Hypothesis HSa : Rabs (val (Sin a)) <= 1.
Hypothesis HCb : Rabs (val (Cos b)) <= 1.
Hypothesis HSb : Rabs (val (Sin b)) <= 1.

Let Ca := val (Cos a).
Let Sa := val (Sin a).
Let Cb := val (Cos b).
Let Sb := val (Sin b).

Lemma plus_Cos_error :
  finite (Cos (Rotation2d_plus a b)) ->
  Rabs (val (Cos (Rotation2d_plus a b)) - (Ca * Cb - Sa * Sb)) <= 6 * u + 4 * eta.
Proof.
  rewrite Rotation2d_plus_dot2. cbn [Cos]. intros H.
  pose proof (dot2_error_unit _ _ HCb HSb _ _ H) as E.
  rewrite val_opp, Rabs_Ropp in E. fold Ca Sa Cb Sb in E.
  replace (Ca * Cb - Sa * Sb) with (Ca * Cb + - Sa * Sb) by ring.
  pose proof u_bounds. assert (u * Rabs Ca <= u * 1) by (apply Rmult_le_compat_l; unfold Ca; lra).
  assert (u * Rabs Sa <= u * 1) by (apply Rmult_le_compat_l; unfold Sa; lra). lra.
Qed.

Lemma plus_Sin_error :
  finite (Sin (Rotation2d_plus a b)) ->
  Rabs (val (Sin (Rotation2d_plus a b)) - (Sa * Cb + Ca * Sb)) <= 6 * u + 4 * eta.
Proof.
  rewrite Rotation2d_plus_dot2. cbn [Sin]. intros H.
  pose proof (dot2_error_unit _ _ HCb HSb _ _ H) as E. fold Ca Sa Cb Sb in E.
  pose proof u_bounds. assert (u * Rabs Ca <= u * 1) by (apply Rmult_le_compat_l; unfold Ca; lra).
  assert (u * Rabs Sa <= u * 1) by (apply Rmult_le_compat_l; unfold Sa; lra). lra.
Qed.

Lemma plus_Cos_le : Rabs (Ca * Cb - Sa * Sb) <= 2.
Proof.
  unfold Rminus. eapply Rle_trans; [apply Rabs_triang|]. rewrite Rabs_Ropp, !Rabs_mult.
  pose proof (Rabs_pos Ca). pose proof (Rabs_pos Sa).
  pose proof (Rabs_pos Cb). pose proof (Rabs_pos Sb). unfold Ca, Sa, Cb, Sb in *. nra.
Qed.

Lemma plus_Sin_le : Rabs (Sa * Cb + Ca * Sb) <= 2.
Proof.
  eapply Rle_trans; [apply Rabs_triang|]. rewrite !Rabs_mult.
  pose proof (Rabs_pos Ca). pose proof (Rabs_pos Sa).
  pose proof (Rabs_pos Cb). pose proof (Rabs_pos Sb). unfold Ca, Sa, Cb, Sb in *. nra.
Qed.

(** One component of the two-step transform against the same component of the
    one-step transform by the sum of the rotations. *)
Lemma comp_component (p q c s x y c' s' : double) (P Q Cx Sx M : R) :
  Rabs (val c) <= 1 -> Rabs (val s) <= 1 ->
  Rabs (val p - P) <= 3 * u * M + 4 * eta -> Rabs (val q - Q) <= 3 * u * M + 4 * eta ->
  Rabs P <= M -> Rabs Q <= M ->
  Rabs (val c' - Cx) <= 6 * u + 4 * eta -> Rabs (val s' - Sx) <= 6 * u + 4 * eta ->
  Rabs Cx <= 2 -> Rabs Sx <= 2 ->
  Rabs (val x) + Rabs (val y) = M ->
  P * val c + Q * val s = val x * Cx + val y * Sx ->
  finite (dot2 p c q s) -> finite (dot2 x c' y s') ->
  Rabs (val (dot2 p c q s) - val (dot2 x c' y s')) <= 32 * u * M + 24 * eta * (1 + M).
Proof.
  intros Hc Hs Hp Hq HP HQ Hc' Hs' HCx HSx HM Hex F1 F2.
  pose proof (dot2_stage _ _ _ _ _ _ _ _ F1 Hc Hs Hp Hq HP HQ) as HL.
  pose proof (dot2_stage_r _ _ _ _ _ _ _ _ F2 Hc' Hs' HCx HSx) as HR.
  rewrite HM in HR. rewrite <- Hex in HR.
  apply (comp_bound M _ _ (P * val c + Q * val s)); trivial.
  rewrite <- HM. pose proof (Rabs_pos (val x)). pose proof (Rabs_pos (val y)). lra.
Qed.

End Composition.

(** C10 (amended). For rotations [a], [b] whose cosines and sines lie in
    [[-1, 1]], transforming by [a] and then by [b] agrees with the single
    transform by [a + b] (the angle-addition formulas, in doubles) on [dtheta]
    exactly and on [dx], [dy] within
    [32 u (|vx| + |vy|) + 24 eta (1 + |vx| + |vy|)], whenever the compared
    doubles are finite. *)
Theorem composition_within_tolerance vx vy vtheta a b :
  let first := FromFieldRelativeSpeeds vx vy vtheta a in
  let two_steps := FromFieldRelativeSpeeds (dx first) (dy first) (dtheta first) b in
  let one_step := FromFieldRelativeSpeeds vx vy vtheta (Rotation2d_plus a b) in
  Rabs (val (Cos a)) <= 1 -> Rabs (val (Sin a)) <= 1 ->
  Rabs (val (Cos b)) <= 1 -> Rabs (val (Sin b)) <= 1 ->
  xy_finite two_steps -> xy_finite one_step ->
  xy_within (32 * u * (Rabs (val vx) + Rabs (val vy))
             + 24 * eta * (1 + (Rabs (val vx) + Rabs (val vy)))) two_steps one_step
  /\ dtheta two_steps = dtheta one_step.
Proof.
  intros first two_steps one_step HCa HSa HCb HSb [F2x F2y] [F1x F1y].
  pose proof (dot2_finite _ _ _ _ F2x) as (Fdx & _ & Fdy & _).
  pose proof (dot2_finite _ _ _ _ F1x) as (_ & Fc' & _ & Fs').
  pose proof (dx_error_unit vx vy vtheta a HCa HSa Fdx) as Edx.
  pose proof (dy_error_unit vx vy vtheta a HCa HSa Fdy) as Edy.
  pose proof (exact_dx_le vx vy a HCa HSa) as Bdx.
  pose proof (exact_dy_le vx vy a HCa HSa) as Bdy.
  pose proof (plus_Cos_error a b HCa HSa HCb HSb Fc') as Ec.
  pose proof (plus_Sin_error a b HCa HSa HCb HSb Fs') as Es.
  pose proof (plus_Cos_le a b HCa HSa HCb HSb) as Bc.
  pose proof (plus_Sin_le a b HCa HSa HCb HSb) as Bs.
  split; [split|reflexivity].
  - apply (comp_component (dx first) (dy first) (Cos b) (Sin b) vx vy _ _ _ _ _ _ _
             HCb HSb Edx Edy Bdx Bdy Ec Es Bc Bs eq_refl); [ring|assumption|assumption].
  - assert (Endx : Rabs (val (- dx first)%float
                         - - (val vx * val (Cos a) + val vy * val (Sin a)))
                   <= 3 * u * (Rabs (val vx) + Rabs (val vy)) + 4 * eta).
    { rewrite val_opp.
      replace (- val (dx first) - - (val vx * val (Cos a) + val vy * val (Sin a)))
        with (- (val (dx first) - (val vx * val (Cos a) + val vy * val (Sin a)))) by ring.
      rewrite Rabs_Ropp. exact Edx. }
    assert (Bndx : Rabs (- (val vx * val (Cos a) + val vy * val (Sin a)))
                   <= Rabs (val vx) + Rabs (val vy)) by (rewrite Rabs_Ropp; exact Bdx).
    assert (HM : Rabs (val (- vx)%float) + Rabs (val vy) = Rabs (val vx) + Rabs (val vy))
      by (rewrite val_opp, Rabs_Ropp; reflexivity).
    apply (comp_component (- dx first)%float (dy first) (Sin b) (Cos b) (- vx)%float vy _ _ _ _ _ _ _
             HSb HCb Endx Edy Bndx Bdy Es Ec Bs Bc HM); [rewrite val_opp; ring|assumption|assumption].
Qed.

Lemma composition_witness :
  xy_within (32 * u * (Rabs (val 1) + Rabs (val 1))
             + 24 * eta * (1 + (Rabs (val 1) + Rabs (val 1))))
    (FromFieldRelativeSpeeds (dx (FromFieldRelativeSpeeds 1 1 0 heading_3_4_5))
        (dy (FromFieldRelativeSpeeds 1 1 0 heading_3_4_5))
        (dtheta (FromFieldRelativeSpeeds 1 1 0 heading_3_4_5)) heading_3_4_5)
    (FromFieldRelativeSpeeds 1 1 0 (Rotation2d_plus heading_3_4_5 heading_3_4_5))
  /\ dtheta (FromFieldRelativeSpeeds (dx (FromFieldRelativeSpeeds 1 1 0 heading_3_4_5))
        (dy (FromFieldRelativeSpeeds 1 1 0 heading_3_4_5))
        (dtheta (FromFieldRelativeSpeeds 1 1 0 heading_3_4_5)) heading_3_4_5)
     = dtheta (FromFieldRelativeSpeeds 1 1 0 (Rotation2d_plus heading_3_4_5 heading_3_4_5)).
Proof.
  apply (composition_within_tolerance 1%float 1%float 0%float heading_3_4_5 heading_3_4_5);
    try (apply well_formed_3_4_5); split; vm_compute; reflexivity.
Defined.

(** * Exact cases *)

Section Exact.
#[local] Open Scope float_scope.

Lemma digits2_pos_iter_xO d : forall m,
  Zpos (digits2_pos (Pos.iter xO m d)) = (Zpos (digits2_pos m) + Zpos d)%Z.
Proof.
  induction d using Pos.peano_ind; intros m.
  - simpl. lia.
  - rewrite Pos.iter_succ. simpl digits2_pos. rewrite Pos2Z.inj_succ, IHd. lia.
Qed.

Lemma iter_shr_1_iter_xO d : forall m,
  SpecFloat.iter_pos shr_1 d
    {| shr_m := Zpos (Pos.iter xO m d); shr_r := false; shr_s := false |}
  = {| shr_m := Zpos m; shr_r := false; shr_s := false |}.
Proof.
  induction d as [d IH|d IH|]; intros m; simpl; rewrite ?IH; reflexivity.
Qed.

(** A product that only shifts the mantissa by [d] digits rounds to itself. *)
Lemma binary_round_aux_shifted s m e d :
  SpecFloat.bounded prec emax m e = true ->
  binary_round_aux prec emax s (Zpos (Pos.iter xO m d)) (e - Zpos d) loc_Exact
  = S754_finite s m e.
Proof.
  unfold SpecFloat.bounded, canonical_mantissa. intros H.
  apply andb_true_iff in H. destruct H as [Hc Hb].
  apply Z.eqb_eq in Hc. apply Z.leb_le in Hb.
  unfold binary_round_aux, shr_fexp. cbn [Zdigits2].
  rewrite digits2_pos_iter_xO.
  replace (Zpos (digits2_pos m) + Zpos d + (e - Zpos d))%Z
    with (Zpos (digits2_pos m) + e)%Z by lia.
  rewrite Hc. replace (e - (e - Zpos d))%Z with (Zpos d) by lia.
  unfold shr_record_of_loc, shr at 1. rewrite iter_shr_1_iter_xO.
  cbn [shr_m loc_of_shr_record round_nearest_even Zdigits2].
  replace (e - Zpos d + Zpos d)%Z with e by lia.
  rewrite Hc, Z.sub_diag. cbn [shr shr_m].
  change (emax - prec)%Z with 971%Z in Hb.
  apply Z.leb_le in Hb. change (emax - prec)%Z with 971%Z. rewrite Hb. reflexivity.
Qed.

Lemma mul_1_r x : finite x -> x * 1 = x.
Proof.
  rewrite finite_SF. intros Hx.
  apply Prim2SF_inj. rewrite mul_spec.
  change (Prim2SF 1) with (S754_finite false 4503599627370496 (-52)).
  pose proof (Prim2SF_valid x) as Hv.
  destruct (Prim2SF x) as [s|s| |s m e]; try discriminate.
  - destruct s; reflexivity.
  - unfold SF64mul, SFmul. rewrite xorb_false_r, Pos.mul_comm.
    change (4503599627370496 * m)%positive with (Pos.iter xO m 52).
    apply (binary_round_aux_shifted s m e 52 Hv).
Qed.

(** C4 (amended). For finite [vx], [vy] and any [vtheta], the zero heading
    returns [dtheta = vtheta] and [dx], [dy] that compare equal ([==]) to [vx],
    [vy]: they are the very same doubles, except that a negative zero may come
    back as the positive zero. *)
Theorem identity_heading_finite vx vy vtheta :
  finite vx -> finite vy ->
  let p := FromFieldRelativeSpeeds vx vy vtheta Rotation2d_default in
  (dx p =? vx) = true /\ (dy p =? vy) = true /\ dtheta p = vtheta /\
  (dx p = vx \/ (vx = neg_zero /\ dx p = 0)) /\
  (dy p = vy \/ (vy = neg_zero /\ dy p = 0)).
Proof.
  intros Hx Hy p.
  assert (Ex : dx p = vx + vy * 0).
  { unfold p, FromFieldRelativeSpeeds. cbn [dx Cos Sin Rotation2d_default].
    rewrite mul_1_r by assumption. reflexivity. }
  assert (Ey : dy p = (- vx) * 0 + vy).
  { unfold p, FromFieldRelativeSpeeds. cbn [dy Cos Sin Rotation2d_default].
    rewrite (mul_1_r vy) by assumption. reflexivity. }
  rewrite Ex, Ey. clear Ex Ey. cbn [dtheta p FromFieldRelativeSpeeds].
  rewrite finite_SF in Hx, Hy.
  assert (Hz : forall s, SF2Prim (S754_zero s) = if s then neg_zero else 0)
    by (intros []; reflexivity).
  assert (Kx : Prim2SF (vx + vy * 0) = Prim2SF vx \/
               (Prim2SF vx = S754_zero true /\ Prim2SF (vx + vy * 0) = S754_zero false)).
  { rewrite add_spec, mul_spec. change (Prim2SF 0) with (S754_zero false).
    destruct (Prim2SF vx) as [sx|sx| |sx mx ex], (Prim2SF vy) as [sy|sy| |sy my ey];
      try discriminate; try (left; reflexivity); destruct sx, sy; simpl; auto. }
  assert (Ky : Prim2SF ((- vx) * 0 + vy) = Prim2SF vy \/
               (Prim2SF vy = S754_zero true /\ Prim2SF ((- vx) * 0 + vy) = S754_zero false)).
  { rewrite add_spec, mul_spec, opp_spec. change (Prim2SF 0) with (S754_zero false).
    destruct (Prim2SF vx) as [sx|sx| |sx mx ex], (Prim2SF vy) as [sy|sy| |sy my ey];
      try discriminate; try (left; reflexivity); destruct sx, sy; simpl; auto. }
  assert (Heq : forall a b, SFfinite (Prim2SF b) = true ->
            (Prim2SF a = Prim2SF b \/
             (Prim2SF b = S754_zero true /\ Prim2SF a = S754_zero false)) ->
            (a =? b) = true /\ (a = b \/ (b = neg_zero /\ a = 0))).
  { intros a b Hb [E|[E1 E2]].
    - split; [|left; apply Prim2SF_inj, E].
      rewrite eqb_spec, E. unfold SFeqb. rewrite SFcompare_refl; trivial.
    - split; [rewrite eqb_spec, E1, E2; reflexivity|].
      right. split; apply Prim2SF_inj; assumption. }
  destruct (Heq _ _ Hx Kx) as [A1 A2]. destruct (Heq _ _ Hy Ky) as [B1 B2].
  repeat split; assumption.
Qed.

End Exact.

(** * The transform as the code computes it *)

Section AsComputed.
#[local] Open Scope float_scope.

(** Two doubles with different bits are different. *)
Lemma float_neq x y : PrimFloat.Leibniz.eqb x y = false -> x <> y.
Proof. intros H E. rewrite E in H. rewrite (proj2 (Leibniz.eqb_spec y y) eq_refl) in H. discriminate. Qed.

(** C1. The three fields of the result are [vx*cos + vy*sin],
    [-vx*sin + vy*cos] and [vtheta], computed in doubles; the minus sign of
    the second can be read on [vx] or on the product [vx*sin]. *)
Theorem FromFieldRelativeSpeeds_fields vx vy vtheta robotAngle :
  let p := FromFieldRelativeSpeeds vx vy vtheta robotAngle in
  dx p = vx * Cos robotAngle + vy * Sin robotAngle /\
  dy p = (- vx) * Sin robotAngle + vy * Cos robotAngle /\
  dy p = - (vx * Sin robotAngle) + vy * Cos robotAngle /\
  dtheta p = vtheta.
Proof.
  cbv zeta. unfold FromFieldRelativeSpeeds. cbn [dx dy dtheta].
  rewrite mul_opp_l. repeat split.
Qed.

(** C2 (as stated) fails: with the heading of cosine 0.6 and sine 0.8, the
    round trip of [(1, 1)] gives [(1, 0.99999999999999989)]. *)
Lemma round_trip_not_exact :
  rotate_forward (FromFieldRelativeSpeeds 1 1 0 heading_3_4_5) heading_3_4_5
    = (1, 0x1.fffffffffffffp-1)
  /\ rotate_forward (FromFieldRelativeSpeeds 1 1 0 heading_3_4_5) heading_3_4_5
    <> (1, 1).
Proof.
  split; [vm_compute; reflexivity|].
  intros H. apply (f_equal snd) in H. revert H. apply float_neq. vm_compute. reflexivity.
Qed.

(** C3. [dtheta] of the result is the input [vtheta]; neither the heading nor
    the linear velocities have any influence on it. *)
Theorem dtheta_unchanged vx vy vtheta robotAngle :
  dtheta (FromFieldRelativeSpeeds vx vy vtheta robotAngle) = vtheta /\
  forall vx' vy' robotAngle',
    dtheta (FromFieldRelativeSpeeds vx' vy' vtheta robotAngle')
    = dtheta (FromFieldRelativeSpeeds vx vy vtheta robotAngle).
Proof. split; reflexivity. Qed.

(** C4 (as stated) fails on two kinds of doubles: a negative zero comes back
    as the positive zero, and an infinite component turns the other one into
    NaN. *)
Lemma identity_heading_not_exact :
  FromFieldRelativeSpeeds neg_zero 0 0 Rotation2d_default
    <> {| dx := neg_zero; dy := 0; dtheta := 0 |}
  /\ FromFieldRelativeSpeeds infinity 1 0 Rotation2d_default
    <> {| dx := infinity; dy := 1; dtheta := 0 |}.
Proof.
  split; intros H.
  - apply (f_equal dx) in H. revert H. apply float_neq. vm_compute. reflexivity.
  - apply (f_equal dy) in H. revert H. apply float_neq. vm_compute. reflexivity.
Qed.

(** C5 (as stated) fails: the heading of cosine 0.6 and sine 0.8 satisfies
    [cos*cos + sin*sin = 1] in doubles, and yet the squared norm of the
    transform of [(1, 1)] is [1.9999999999999998], not [2]. *)
Lemma norm_not_preserved :
  let p := FromFieldRelativeSpeeds 1 1 0 heading_3_4_5 in
  norm2 (Cos heading_3_4_5) (Sin heading_3_4_5) = 1 /\
  norm2 (dx p) (dy p) = 0x1.fffffffffffffp+0 /\
  norm2 1 1 = 2 /\
  norm2 (dx p) (dy p) <> norm2 1 1.
Proof.
  cbv zeta. repeat split; try (vm_compute; reflexivity).
  apply float_neq. vm_compute. reflexivity.
Qed.

(** C6. With the quarter-turn heading (cosine 0, sine 1) the transform of
    [(1, 0, 0)] is [(0, -1, 0)]. *)
Theorem quarter_turn :
  FromFieldRelativeSpeeds 1 0 0 heading_quarter = {| dx := 0; dy := -1; dtheta := 0 |}.
Proof. vm_compute. reflexivity. Qed.

(** C7. Default construction: all-zero chassis speeds; a module state with
    zero speed and the zero rotation. *)
Theorem default_construction :
  dx ChassisSpeeds_default = 0 /\ dy ChassisSpeeds_default = 0 /\
  dtheta ChassisSpeeds_default = 0 /\
  speed SwerveModuleState_default = 0 /\
  angle SwerveModuleState_default = Rotation2d_default /\
  Cos (angle SwerveModuleState_default) = 1 /\
  Sin (angle SwerveModuleState_default) = 0.
Proof. repeat split. Qed.

(** C9 (as stated) fails: scaling the input [(1, 1, 0)] by 3 gives
    [dx = 4.2000000000000002], scaling the result gives
    [dx = 4.1999999999999993]; and the zero input gives [dx = -0] for a
    heading in the third quadrant. *)
Lemma not_linear :
  dx (FromFieldRelativeSpeeds (3 * 1) (3 * 1) (3 * 0) heading_3_4_5)
    = 0x1.0cccccccccccdp+2 /\
  dx (ChassisSpeeds_scale 3 (FromFieldRelativeSpeeds 1 1 0 heading_3_4_5))
    = 0x1.0ccccccccccccp+2 /\
  FromFieldRelativeSpeeds (3 * 1) (3 * 1) (3 * 0) heading_3_4_5
    <> ChassisSpeeds_scale 3 (FromFieldRelativeSpeeds 1 1 0 heading_3_4_5) /\
  FromFieldRelativeSpeeds 0 0 0
      {| Cos := - Cos heading_3_4_5; Sin := - Sin heading_3_4_5 |}
    <> ChassisSpeeds_default.
Proof.
  repeat split; try (vm_compute; reflexivity); intros H;
    apply (f_equal dx) in H; revert H; apply float_neq; vm_compute; reflexivity.
Qed.

(** C10 (as stated) fails: for [(1, 1, 0)] and twice the heading of cosine
    0.6 and sine 0.8, two steps give [dx = 0.67999999999999994] and one step
    by the sum gives [dx = 0.67999999999999983]. *)
Lemma composition_not_exact :
  let first := FromFieldRelativeSpeeds 1 1 0 heading_3_4_5 in
  let two_steps := FromFieldRelativeSpeeds (dx first) (dy first) (dtheta first) heading_3_4_5 in
  let one_step := FromFieldRelativeSpeeds 1 1 0 (Rotation2d_plus heading_3_4_5 heading_3_4_5) in
  dx two_steps = 0x1.5c28f5c28f5c2p-1 /\
  dx one_step = 0x1.5c28f5c28f5c1p-1 /\
  two_steps <> one_step.
Proof.
  cbv zeta. repeat split; try (vm_compute; reflexivity). intros H.
  apply (f_equal dx) in H; revert H; apply float_neq; vm_compute; reflexivity.
Qed.

End AsComputed.

Lemma identity_heading_finite_witness :
  let p := FromFieldRelativeSpeeds 0x1.8p+1 (-0x1p-1) 7 Rotation2d_default in
  (dx p =? 0x1.8p+1)%float = true /\ (dy p =? -0x1p-1)%float = true /\ dtheta p = 7%float /\
  (dx p = 0x1.8p+1%float \/ (0x1.8p+1%float = neg_zero /\ dx p = 0%float)) /\
  (dy p = (-0x1p-1)%float \/ ((-0x1p-1)%float = neg_zero /\ dy p = 0%float)).
Proof.
  apply (identity_heading_finite 0x1.8p+1%float (-0x1p-1)%float 7%float); reflexivity.
Defined.

(** * Further properties of the transform *)

(** ** Symmetries that hold exactly *)

Section Symmetry.
#[local] Open Scope float_scope.

Lemma mul_opp_r x y : x * (- y) = - (x * y).
Proof.
  apply Prim2SF_inj. rewrite opp_spec, !mul_spec, opp_spec.
  destruct (Prim2SF x) as [sx|sx| |sx mx ex], (Prim2SF y) as [sy|sy| |sy my ey];
    simpl; try reflexivity; try (destruct sx, sy; reflexivity).
  unfold SF64mul, SFmul, binary_round_aux.
  destruct (shr_fexp _ _ _ _ _) as [mrs' e'].
  destruct (shr_fexp _ _ _ _ _) as [mrs'' e''].
  replace (xorb sx (negb sy)) with (negb (xorb sx sy)) by (destruct sx, sy; reflexivity).
  destruct (shr_m mrs''); simpl; trivial.
  destruct (e'' <=? 971)%Z; reflexivity.
Qed.

(** Rounding a sum is symmetric too: opposite operands give the opposite sum,
    except that an exact cancellation gives [+0] both ways. *)
Lemma SFadd_opp x y :
  SF64add (SFopp x) (SFopp y) = SFopp (SF64add x y) \/
  (exists s s', SF64add (SFopp x) (SFopp y) = S754_zero s /\ SF64add x y = S754_zero s').
Proof.
  destruct x as [sx|sx| |sx mx ex], y as [sy|sy| |sy my ey]; simpl;
    try (left; reflexivity); try (destruct sx, sy; simpl; eauto; fail).
  unfold SF64add, SFadd.
  set (ez := Z.min ex ey).
  set (a := Zpos (fst (shl_align mx ex ez))). set (b := Zpos (fst (shl_align my ey ez))).
  replace (cond_Zopp (negb sx) a + cond_Zopp (negb sy) b)%Z
    with (- (cond_Zopp sx a + cond_Zopp sy b))%Z
    by (clearbody a b; unfold cond_Zopp; destruct sx, sy; cbn [negb]; lia).
  destruct (cond_Zopp sx a + cond_Zopp sy b)%Z as [|m|m]; simpl.
  - right. eauto.
  - left. unfold binary_round.
    destruct (shl_align m ez _) as [mz ez']. unfold binary_round_aux.
    destruct (shr_fexp _ _ _ _ _) as [mrs' e'].
    destruct (shr_fexp _ _ _ _ _) as [mrs'' e''].
    destruct (shr_m mrs''); simpl; trivial. destruct (e'' <=? 971)%Z; reflexivity.
  - left. unfold binary_round.
    destruct (shl_align m ez _) as [mz ez']. unfold binary_round_aux.
    destruct (shr_fexp _ _ _ _ _) as [mrs' e'].
    destruct (shr_fexp _ _ _ _ _) as [mrs'' e''].
    destruct (shr_m mrs''); simpl; trivial. destruct (e'' <=? 971)%Z; reflexivity.
Qed.



Lemma same_number_SF x y :
  Prim2SF x = Prim2SF y \/
  (exists s s', Prim2SF x = S754_zero s /\ Prim2SF y = S754_zero s') ->
  same_number x y.
Proof.
  intros [E|(s & s' & E1 & E2)]; [left; apply Prim2SF_inj, E|right].
  unfold is_zero. rewrite !eqb_spec, E1, E2.
  change (Prim2SF zero) with (S754_zero false). split; reflexivity.
Qed.

Lemma add_opp_opp x y : same_number ((- x) + (- y)) (- (x + y)).
Proof.
  apply same_number_SF. rewrite opp_spec, !add_spec, !opp_spec.
  destruct (SFadd_opp (Prim2SF x) (Prim2SF y)) as [E|(s & s' & E1 & E2)]; [left; exact E|].
  right. exists s, (negb s'). rewrite E1, E2. split; reflexivity.
Qed.

(** X5. Reversing the commanded velocity reverses the result exactly: no
    rounding asymmetry, for every double (NaN and infinities included). *)
Theorem negated_input_negates_output vx vy vtheta robotAngle :
  let p := FromFieldRelativeSpeeds vx vy vtheta robotAngle in
  let q := FromFieldRelativeSpeeds (- vx) (- vy) (- vtheta) robotAngle in
  same_number (dx q) (- dx p) /\ same_number (dy q) (- dy p) /\
  dtheta q = - dtheta p.
Proof.
  cbv zeta. unfold FromFieldRelativeSpeeds. cbn [dx dy dtheta].
  repeat split.
  - rewrite !(mul_opp_l vx), !(mul_opp_l vy). apply add_opp_opp.
  - rewrite (mul_opp_l (- vx)), (mul_opp_l vy). apply add_opp_opp.
Qed.

Lemma mul_zero_r x :
  finite x -> exists s, Prim2SF (x * 0) = S754_zero s.
Proof.
  rewrite finite_SF, mul_spec. change (Prim2SF 0) with (S754_zero false).
  destruct (Prim2SF x) as [s|s| |s m e]; try discriminate; simpl; eauto.
Qed.

Lemma add_zero_r x z :
  finite x -> (exists s, Prim2SF z = S754_zero s) -> same_number (x + z) x.
Proof.
  rewrite finite_SF. intros Hx [s Hz]. apply same_number_SF. rewrite add_spec, Hz.
  destruct (Prim2SF x) as [sx|sx| |sx m e]; try discriminate.
  - right. exists (if Bool.eqb sx s then sx else false), sx.
    split; [destruct sx, s|]; reflexivity.
  - left. reflexivity.
Qed.

Lemma add_zero_l x z :
  finite x -> (exists s, Prim2SF z = S754_zero s) -> same_number (z + x) x.
Proof.
  rewrite finite_SF. intros Hx [s Hz]. apply same_number_SF. rewrite add_spec, Hz.
  destruct (Prim2SF x) as [sx|sx| |sx m e]; try discriminate.
  - right. exists (if Bool.eqb s sx then s else false), sx.
    split; [destruct sx, s|]; reflexivity.
  - left. reflexivity.
Qed.

(** X4. Quarter and half turns are exact on finite inputs: the components are
    swapped and negated, with no rounding; only the sign of a zero may
    differ. *)
Theorem axis_headings_exact vx vy vtheta :
  finite vx -> finite vy ->
  let q := FromFieldRelativeSpeeds vx vy vtheta heading_quarter in
  let h := FromFieldRelativeSpeeds vx vy vtheta heading_half in
  (same_number (dx q) vy /\ same_number (dy q) (- vx) /\ dtheta q = vtheta) /\
  (same_number (dx h) (- vx) /\ same_number (dy h) (- vy) /\ dtheta h = vtheta).
Proof.
  intros Hx Hy. cbv zeta.
  assert (Hnx : finite (- vx)) by (apply finite_opp; exact Hx).
  assert (Hny : finite (- vy)) by (apply finite_opp; exact Hy).
  unfold FromFieldRelativeSpeeds, heading_quarter, heading_half. cbn [dx dy dtheta Cos Sin].
  change (-1) with (- (1)). rewrite !mul_opp_r, !mul_1_r by assumption.
  repeat split.
  - apply add_zero_l, mul_zero_r; assumption.
  - apply add_zero_r, mul_zero_r; assumption.
  - apply add_zero_r, mul_zero_r; assumption.
  - apply add_zero_l, mul_zero_r; assumption.
Qed.

Lemma axis_headings_exact_witness :
  let q := FromFieldRelativeSpeeds 0x1.8p+1 (-0x1p-1) 7 heading_quarter in
  let h := FromFieldRelativeSpeeds 0x1.8p+1 (-0x1p-1) 7 heading_half in
  (same_number (dx q) (-0x1p-1) /\ same_number (dy q) (- 0x1.8p+1) /\ dtheta q = 7) /\
  (same_number (dx h) (- 0x1.8p+1) /\ same_number (dy h) (- -0x1p-1) /\ dtheta h = 7).
Proof.
  apply (axis_headings_exact 0x1.8p+1 (-0x1p-1) 7); reflexivity.
Defined.

(** X2. A finite [dx] or [dy] needs all four of [vx], [vy], cosine and sine
    finite: a NaN or an infinity in any of them reaches both linear
    components. *)
Theorem finite_result_finite_inputs vx vy vtheta robotAngle :
  let p := FromFieldRelativeSpeeds vx vy vtheta robotAngle in
  finite (dx p) \/ finite (dy p) ->
  finite vx /\ finite vy /\ finite (Cos robotAngle) /\ finite (Sin robotAngle).
Proof.
  cbv zeta. intros [H|H].
  - apply (dot2_finite vx (Cos robotAngle) vy (Sin robotAngle)) in H. tauto.
  - apply (dot2_finite (- vx) (Sin robotAngle) vy (Cos robotAngle)) in H.
    rewrite finite_opp in H. tauto.
Qed.

Lemma finite_result_finite_inputs_witness :
  finite 1 /\ finite 1 /\ finite (Cos heading_3_4_5) /\ finite (Sin heading_3_4_5).
Proof.
  apply (finite_result_finite_inputs 1 1 0 heading_3_4_5). left. reflexivity.
Defined.


Lemma add_comm x y : x + y = y + x.
Proof.
  apply Prim2SF_inj. rewrite !add_spec.
  destruct (Prim2SF x) as [sx|sx| |sx mx ex], (Prim2SF y) as [sy|sy| |sy my ey];
    try reflexivity; try (destruct sx, sy; reflexivity).
  unfold SF64add, SFadd. rewrite (Z.min_comm ey ex). f_equal. apply Z.add_comm.
Qed.

(** X6. Turning the field axes by a quarter turn turns the result by the same
    quarter turn, exactly: the transform of [(vy, -vx)] is [(dy, -dx)]. *)
Theorem field_quarter_turn_equivariant vx vy vtheta robotAngle :
  let p := FromFieldRelativeSpeeds vx vy vtheta robotAngle in
  let q := FromFieldRelativeSpeeds vy (- vx) vtheta robotAngle in
  dx q = dy p /\ same_number (dy q) (- dx p) /\ dtheta q = dtheta p.
Proof.
  cbv zeta. unfold FromFieldRelativeSpeeds. cbn [dx dy dtheta].
  repeat split.
  - apply add_comm.
  - rewrite (mul_opp_l vy), (mul_opp_l vx), (add_comm (vx * _)). apply add_opp_opp.
Qed.

End Symmetry.

(** ** Accuracy and range *)

Section Accuracy.

(** X1. Accuracy of the transform, for any heading: each finite linear component
    is within three units of roundoff of its two exact terms (plus the
    underflow term) of the exact rotation of the values of the inputs. *)
Theorem transform_accuracy vx vy vtheta robotAngle :
  let p := FromFieldRelativeSpeeds vx vy vtheta robotAngle in
  let X := val vx in let Y := val vy in
  let C := val (Cos robotAngle) in let S := val (Sin robotAngle) in
  xy_finite p ->
  Rabs (val (dx p) - (X * C + Y * S))
    <= 3 * u * (Rabs (X * C) + Rabs (Y * S)) + 4 * eta /\
  Rabs (val (dy p) - (- X * S + Y * C))
    <= 3 * u * (Rabs (X * S) + Rabs (Y * C)) + 4 * eta.
Proof.
  cbv zeta. intros [Hx Hy]. split; [apply dx_error | apply dy_error]; assumption.
Qed.

Lemma transform_accuracy_witness :
  let p := FromFieldRelativeSpeeds 1 1 0 heading_3_4_5 in
  let X := val 1 in let Y := val 1 in
  let C := val (Cos heading_3_4_5) in let S := val (Sin heading_3_4_5) in
  Rabs (val (dx p) - (X * C + Y * S))
    <= 3 * u * (Rabs (X * C) + Rabs (Y * S)) + 4 * eta /\
  Rabs (val (dy p) - (- X * S + Y * C))
    <= 3 * u * (Rabs (X * S) + Rabs (Y * C)) + 4 * eta.
Proof.
  apply (transform_accuracy 1%float 1%float 0%float heading_3_4_5). split; reflexivity.
Defined.


Lemma bpow_ge_1 k : (0 <= k)%Z -> 1 <= bpow k.
Proof. intros H. change 1 with (bpow 0). apply bpow_le, H. Qed.

(** A value below [2^971] never rounds to an infinity. *)
Lemma binary_round_aux_small s m e :
  IZR (Zpos m) * bpow e < bpow 971 ->
  SFfinite (binary_round_aux prec emax s (Zpos m) e loc_Exact) = true.
Proof.
  intros Hx.
  destruct (binary_round_aux_core s m e) as (M & E & HM & -> & Herr).
  destruct M as [|M|M]; try lia; [reflexivity|].
  destruct (E <=? 971)%Z eqn:HE; [reflexivity|exfalso].
  apply Z.leb_gt in HE.
  pose proof u_bounds as Hu. pose proof eta_bounds as Heta.
  pose proof (bpow_ge_1 971 ltac:(lia)) as HB.
  assert (H2 : bpow 972 = 2 * bpow 971)
    by (change 972%Z with (1 + 971)%Z; rewrite bpow_add, bpow_1; reflexivity).
  assert (HME : bpow 972 <= IZR (Zpos M) * bpow E).
  { apply Rle_trans with (1 * bpow E).
    - rewrite Rmult_1_l. apply bpow_le. lia.
    - apply Rmult_le_compat_r; [apply Rlt_le, bpow_gt_0|]. apply IZR_le. lia. }
  assert (Hpos : 0 < IZR (Zpos m) * bpow e).
  { apply Rmult_lt_0_compat; [apply IZR_lt; lia | apply bpow_gt_0]. }
  apply Rabs_le_inv in Herr.
  assert (u * (IZR (Zpos m) * bpow e) <= / 1024 * (IZR (Zpos m) * bpow e))
    by (apply Rmult_le_compat_r; lra).
  lra.
Qed.

Lemma SFmul_small x y :
  SFfinite x = true -> SFfinite y = true ->
  Rabs (SF2R x * SF2R y) < bpow 971 ->
  SFfinite (SF64mul x y) = true.
Proof.
  destruct x as [sx|sx| |sx mx ex], y as [sy|sy| |sy my ey]; try discriminate;
    intros _ _ H; try reflexivity.
  unfold SF64mul, SFmul. apply binary_round_aux_small.
  simpl SF2R in H. rewrite cond_Ropp_mult, cond_Ropp_abs in H.
  replace (IZR (Zpos (mx * my)) * bpow (ex + ey))
    with (IZR (Zpos mx) * bpow ex * (IZR (Zpos my) * bpow ey))
    by (rewrite Pos2Z.inj_mul, mult_IZR, bpow_add; ring).
  apply Rle_lt_trans with (2 := H). apply Rle_abs.
Qed.

Lemma binary_normalize_small z e sz :
  Rabs (IZR z * bpow e) < bpow 971 ->
  SFfinite (binary_normalize prec emax z e sz) = true.
Proof.
  intros H.
  assert (Hm : forall s m, IZR (Zpos m) * bpow e < bpow 971 ->
            SFfinite (binary_round prec emax s m e) = true).
  { intros s m Hx. unfold binary_round.
    pose proof (shl_align_value m e (fexp prec emax (Z.pos (digits2_pos m) + e))) as Hv.
    destruct (shl_align m e _) as [mz ez]. cbn [fst snd] in Hv.
    apply binary_round_aux_small. rewrite Hv. exact Hx. }
  destruct z as [|m|m]; simpl binary_normalize; [reflexivity| |]; apply Hm.
  - apply Rle_lt_trans with (2 := H). apply Rle_abs.
  - apply Rle_lt_trans with (2 := H).
    replace (IZR (Zpos m) * bpow e) with (- (IZR (Zneg m) * bpow e)).
    + rewrite <- Rabs_Ropp. apply Rle_abs.
    + change (Zneg m) with (- Zpos m)%Z. rewrite opp_IZR. ring.
Qed.

Lemma SFadd_small x y :
  SFfinite x = true -> SFfinite y = true ->
  Rabs (SF2R x + SF2R y) < bpow 971 ->
  SFfinite (SF64add x y) = true.
Proof.
  destruct x as [sx|sx| |sx mx ex], y as [sy|sy| |sy my ey]; try discriminate;
    intros _ _ H; try reflexivity; try (destruct sx, sy; reflexivity).
  unfold SF64add, SFadd. apply binary_normalize_small.
  set (ez := Z.min ex ey) in *.
  pose proof (shl_align_value mx ex ez) as Hx.
  pose proof (shl_align_value my ey ez) as Hy.
  rewrite shl_align_exponent in Hx, Hy by (unfold ez; lia).
  rewrite plus_IZR, !cond_Zopp_IZR.
  replace ((cond_Ropp sx (IZR (Zpos (fst (shl_align mx ex ez))))
            + cond_Ropp sy (IZR (Zpos (fst (shl_align my ey ez))))) * bpow ez)
    with (SF2R (S754_finite sx mx ex) + SF2R (S754_finite sy my ey)); [exact H|].
  simpl SF2R. rewrite <- Hx, <- Hy. destruct sx, sy; simpl; ring.
Qed.

Lemma mul_small x y :
  finite x -> finite y -> Rabs (val x * val y) < bpow 971 -> finite (x * y).
Proof. rewrite !finite_SF, mul_spec. apply SFmul_small. Qed.

Lemma add_small x y :
  finite x -> finite y -> Rabs (val x + val y) < bpow 971 -> finite (x + y).
Proof. rewrite !finite_SF, add_spec. apply SFadd_small. Qed.

(** Two products by factors of magnitude at most 1 and their sum stay finite
    when the other factors add up to at most [2^969]. *)
Lemma dot2_small a c b s :
  finite a -> finite b -> finite c -> finite s ->
  Rabs (val c) <= 1 -> Rabs (val s) <= 1 ->
  Rabs (val a) + Rabs (val b) <= bpow 969 ->
  finite (dot2 a c b s).
Proof.
  intros Fa Fb Fc Fs Hc Hs HM. unfold dot2.
  pose proof u_bounds as Hu. pose proof eta_bounds as Heta.
  pose proof (bpow_ge_1 969 ltac:(lia)) as HB.
  assert (H4 : bpow 971 = 4 * bpow 969).
  { change 971%Z with (1 + (1 + 969))%Z. rewrite !bpow_add, bpow_1. ring. }
  pose proof (Rabs_pos (val a)) as Ha. pose proof (Rabs_pos (val b)) as Hb.
  pose proof (Rabs_pos (val c)). pose proof (Rabs_pos (val s)).
  assert (Hac : Rabs (val a * val c) <= Rabs (val a)) by (rewrite Rabs_mult; nra).
  assert (Hbs : Rabs (val b * val s) <= Rabs (val b)) by (rewrite Rabs_mult; nra).
  assert (Fp : finite (a * c)) by (apply mul_small; trivial; lra).
  assert (Fq : finite (b * s)) by (apply mul_small; trivial; lra).
  apply add_small; trivial.
  pose proof (Rabs_bound _ _ _ (mul_error _ _ Fp)) as Ep.
  pose proof (Rabs_bound _ _ _ (mul_error _ _ Fq)) as Eq.
  eapply Rle_lt_trans; [apply Rabs_triang|].
  assert (u * Rabs (val a * val c) <= / 1024 * Rabs (val a)).
  { apply Rle_trans with (u * Rabs (val a)); [apply Rmult_le_compat_l; lra|].
    apply Rmult_le_compat_r; lra. }
  assert (u * Rabs (val b * val s) <= / 1024 * Rabs (val b)).
  { apply Rle_trans with (u * Rabs (val b)); [apply Rmult_le_compat_l; lra|].
    apply Rmult_le_compat_r; lra. }
  lra.
Qed.

(** X3. No overflow and no NaN: for finite inputs of total magnitude at most
    [2^969] and a finite heading with cosine and sine in [[-1, 1]], both linear
    components of the result are finite doubles. *)
Theorem bounded_inputs_finite_result vx vy vtheta robotAngle :
  finite vx -> finite vy ->
  finite (Cos robotAngle) -> finite (Sin robotAngle) ->
  Rabs (val (Cos robotAngle)) <= 1 -> Rabs (val (Sin robotAngle)) <= 1 ->
  Rabs (val vx) + Rabs (val vy) <= bpow 969 ->
  xy_finite (FromFieldRelativeSpeeds vx vy vtheta robotAngle).
Proof.
  intros Fx Fy Fc Fs Hc Hs HM. split.
  - apply (dot2_small vx (Cos robotAngle) vy (Sin robotAngle)); assumption.
  - apply (dot2_small (- vx)%float (Sin robotAngle) vy (Cos robotAngle)); trivial.
    + apply finite_opp, Fx.
    + rewrite val_opp, Rabs_Ropp. exact HM.
Qed.

Lemma val_one : val 1 = 1.
Proof.
  unfold val. change (Prim2SF 1) with (S754_finite false 4503599627370496 (-52)).
  cbn [SF2R cond_Ropp].
  replace (bpow (-52)) with (/ IZR (2 ^ 52)) by (symmetry; apply (bpow_opp 52); lia).
  change (2 ^ 52)%Z with 4503599627370496%Z. field.
Qed.

Lemma bounded_inputs_finite_result_witness :
  xy_finite (FromFieldRelativeSpeeds 1 1 0 heading_3_4_5).
Proof.
  apply (bounded_inputs_finite_result 1%float 1%float 0%float heading_3_4_5);
    try reflexivity; try apply well_formed_3_4_5.
  rewrite val_one, Rabs_R1. pose proof (bpow_le 1 969 ltac:(lia)) as H.
  rewrite bpow_1 in H. lra.
Defined.


(** X7. The transform does not amplify: for a heading with cosine and sine in
    [[-1, 1]], a finite component of the result is at most the total input
    magnitude, up to three units of roundoff. *)
Theorem result_magnitude_bounded vx vy vtheta robotAngle :
  let p := FromFieldRelativeSpeeds vx vy vtheta robotAngle in
  Rabs (val (Cos robotAngle)) <= 1 -> Rabs (val (Sin robotAngle)) <= 1 ->
  xy_finite p ->
  Rabs (val (dx p)) <= (1 + 3 * u) * (Rabs (val vx) + Rabs (val vy)) + 4 * eta /\
  Rabs (val (dy p)) <= (1 + 3 * u) * (Rabs (val vx) + Rabs (val vy)) + 4 * eta.
Proof.
  cbv zeta. intros HC HS [Fx Fy]. split.
  - pose proof (Rabs_bound _ _ _ (dx_error_unit vx vy vtheta robotAngle HC HS Fx)) as H.
    pose proof (exact_dx_le vx vy robotAngle HC HS). lra.
  - pose proof (Rabs_bound _ _ _ (dy_error_unit vx vy vtheta robotAngle HC HS Fy)) as H.
    pose proof (exact_dy_le vx vy robotAngle HC HS). lra.
Qed.

Lemma result_magnitude_bounded_witness :
  let p := FromFieldRelativeSpeeds 1 1 0 heading_3_4_5 in
  Rabs (val (dx p)) <= (1 + 3 * u) * (Rabs (val 1) + Rabs (val 1)) + 4 * eta /\
  Rabs (val (dy p)) <= (1 + 3 * u) * (Rabs (val 1) + Rabs (val 1)) + 4 * eta.
Proof.
  apply (result_magnitude_bounded 1%float 1%float 0%float heading_3_4_5);
    try apply well_formed_3_4_5. split; reflexivity.
Defined.

End Accuracy.
